(** * wp-recipe-ai: the /api/generate route, embedded and verified

    Shallow embedding of [src/app/api/generate/route.ts] (the rate-limited
    variant with the seven-field recipe schema): the per-IP rate limiter,
    the input validator, the response sanitizer, the recipe field checks
    and the [POST] handler that chains them. *)

From Stdlib Require Import ZArith NArith List Ascii String Bool Lia.
From Stdlib Require Import Floats.SpecFloat.
From stdpp Require Import gmap list.

Set Warnings "-register-all".

Local Open Scope Z_scope.

(** ** JavaScript strings

    A JavaScript string is a sequence of UTF-16 code units; [length] counts
    code units.  Literals of the source are written as Rocq strings and
    converted with [lit]. *)

Definition jsstring := list N.

Definition lit (s : string) : jsstring :=
  List.map N_of_ascii (list_ascii_of_string s).

(** [~] stands for the double quote in the literals that need one. *)
Definition litq (s : string) : jsstring :=
  List.map (fun c => if N.eqb c 126 then 34%N else c) (lit s).

Definition jslength (s : jsstring) : Z := Z.of_nat (List.length s).

(** WhiteSpace and LineTerminator code units of ECMAScript: what [\s]
    matches in a regular expression and what [String.prototype.trim]
    strips. *)
Definition is_space (c : N) : bool :=
  ((9 <=? c) && (c <=? 13) || (c =? 32) || (c =? 160) || (c =? 5760)
   || (8192 <=? c) && (c <=? 8202) || (c =? 8232) || (c =? 8233)
   || (c =? 8239) || (c =? 8287) || (c =? 12288) || (c =? 65279))%N.

Fixpoint trimStart (s : jsstring) : jsstring :=
  match s with
  | c :: t => if is_space c then trimStart t else s
  | [] => []
  end.

Fixpoint trimEnd (s : jsstring) : jsstring :=
  match s with
  | c :: t => if forallb is_space s then [] else c :: trimEnd t
  | [] => []
  end.

Definition trim (s : jsstring) : jsstring := trimEnd (trimStart s).

(** The empty string is the only falsy string. *)
Definition nonempty (s : jsstring) : bool :=
  match s with [] => false | _ => true end.

(** ** Rate limiting configuration *)

Definition RATE_LIMIT_WINDOW : Z := 60 * 60 * 1000.
Definition MAX_REQUESTS_PER_IP : Z := 20.
Definition MAX_TOKENS : Z := 30000.

(** ** The rate limiter

    [ipRequests] is a module-level [Map] from IP to [{count, timestamp}];
    here it is threaded through explicitly, and [Date.now()] is an input. *)

Record requestData := { count : Z; timestamp : Z }.

Abbreviation ipStore := (gmap jsstring requestData).

Definition isRateLimited (now : Z) (ip : jsstring) (ipRequests : ipStore)
  : bool * ipStore :=
  match ipRequests !! ip with
  | None =>
      (false, <[ip := {| count := 1; timestamp := now |}]> ipRequests)
  | Some data =>
      if RATE_LIMIT_WINDOW <? now - timestamp data then
        (false, <[ip := {| count := 1; timestamp := now |}]> ipRequests)
      else if MAX_REQUESTS_PER_IP <=? count data then
        (true, ipRequests)
      else
        (false,
         <[ip := {| count := count data + 1; timestamp := timestamp data |}]>
           ipRequests)
  end.

(** The hourly [setInterval] callback: drop every entry older than the
    window. *)
Definition sweep (now : Z) (ipRequests : ipStore) : ipStore :=
  filter (fun kv => negb (RATE_LIMIT_WINDOW <? now - timestamp kv.2) = true)
         ipRequests.

(** What happens to the store over time: requests and sweeps, in the order
    the event loop runs them. *)
Inductive event :=
| Request (now : Z) (ip : jsstring)
| Sweep (now : Z).

(** [decisions ip evs m]: the answers [isRateLimited] gives to the requests
    of [ip] while [evs] runs from store [m], oldest first. *)
Fixpoint decisions (ip : jsstring) (evs : list event) (m : ipStore)
  : list bool :=
  match evs with
  | [] => []
  | Sweep now :: evs' => decisions ip evs' (sweep now m)
  | Request now ip' :: evs' =>
      let '(limited, m') := isRateLimited now ip' m in
      if decide (ip' = ip) then limited :: decisions ip evs' m'
      else decisions ip evs' m'
  end.

(** Number of requests of [ip] among the events. *)
Fixpoint requests_of (ip : jsstring) (evs : list event) : nat :=
  match evs with
  | [] => O
  | Request _ ip' :: evs' =>
      if decide (ip' = ip) then S (requests_of ip evs') else requests_of ip evs'
  | Sweep _ :: evs' => requests_of ip evs'
  end.

(** [e] happens within the window that [ip] opened at [t1]; requests of
    other keys are not constrained. *)
Definition in_window (ip : jsstring) (t1 : Z) (e : event) : Prop :=
  match e with
  | Request now ip' => ip' = ip → now - t1 ≤ RATE_LIMIT_WINDOW
  | Sweep now => now - t1 ≤ RATE_LIMIT_WINDOW
  end.

(** A request at [now] opens a fresh window for [ip] when there is no entry
    or the entry is older than the window. *)
Definition opens_window (now : Z) (ip : jsstring) (m : ipStore) : Prop :=
  m !! ip = None ∨
  ∃ d, m !! ip = Some d ∧ RATE_LIMIT_WINDOW < now - timestamp d.

(** ** JSON values

    What [JSON.parse] and [req.json()] produce.  Numbers are IEEE doubles;
    an object is the list of its own properties in the order in which the
    object lists them (see [set_prop]).  A
    property that is absent reads as [undefined], which is [None] in
    [option json]. *)

Inductive json :=
| JNull
| JBool (b : bool)
| JNum (x : spec_float)
| JStr (s : jsstring)
| JArr (items : list json)
| JObj (props : list (jsstring * json)).

Abbreviation jsvalue := (option json).

Fixpoint assoc (k : jsstring) (props : list (jsstring * json)) : jsvalue :=
  match props with
  | [] => None
  | (k', v) :: rest => if decide (k' = k) then Some v else assoc k rest
  end.

(** [v[k]] for a non-null [v] and a property name [k] that is neither an
    index, nor [length], nor a prototype member (the route only reads the
    recipe and request field names): own properties of objects only.  An
    object holds each key once ([JSON.parse] overwrites, see [set_prop]). *)
Definition get (v : json) (k : jsstring) : jsvalue :=
  match v with
  | JObj props => assoc k props
  | _ => None
  end.

(** ToBoolean. *)
Definition truthy (v : jsvalue) : bool :=
  match v with
  | None | Some JNull => false
  | Some (JBool b) => b
  | Some (JNum (S754_zero _)) | Some (JNum S754_nan) => false
  | Some (JNum _) => true
  | Some (JStr s) => nonempty s
  | Some (JArr _) | Some (JObj _) => true
  end.

Definition isArray (v : jsvalue) : bool :=
  match v with Some (JArr _) => true | _ => false end.

(** [v.length === 0] for a value already known to be an array. *)
Definition length_is_zero (v : jsvalue) : bool :=
  match v with Some (JArr []) => true | _ => false end.

Fixpoint join (sep : jsstring) (l : list jsstring) : jsstring :=
  match l with
  | [] => []
  | [s] => s
  | s :: rest => s ++ sep ++ join sep rest
  end.

(** ** Numbers as text *)

(** The decimal digits of [n], most significant first. *)
Fixpoint write_digits (fuel : nat) (n : N) (acc : jsstring) : jsstring :=
  match fuel with
  | O => acc
  | S fuel' =>
      let acc' := (48 + n mod 10)%N :: acc in
      if (n <? 10)%N then acc' else write_digits fuel' (n / 10)%N acc'
  end.

Definition to_decimal (n : N) : jsstring :=
  write_digits (S (N.to_nat (N.log2 n))) n [].

(** The integer a finite double stands for, when it is one. *)
Definition integer_value (m : positive) (e : Z) : option N :=
  if 0 <=? e then Some (Npos m * 2 ^ Z.to_N e)%N
  else if (Npos m mod 2 ^ Z.to_N (- e) =? 0)%N
       then Some (Npos m / 2 ^ Z.to_N (- e))%N
       else None.

(** Number::toString: the integers up to 2^53 in magnitude are written
    with all their digits; [other] is the engine's rendering of the other
    finite numbers. *)
Definition Number_toString (other : spec_float → jsstring) (x : spec_float)
  : jsstring :=
  match x with
  | S754_nan => lit "NaN"
  | S754_zero _ => lit "0"
  | S754_infinity false => lit "Infinity"
  | S754_infinity true => lit "-Infinity"
  | S754_finite neg m e =>
      match integer_value m e with
      | Some n =>
          if (n <=? 2 ^ 53)%N
          then (if neg then lit "-" else []) ++ to_decimal n
          else other x
      | None => other x
      end
  end.

(** ** Thrown values and the engine *)

(** What a [catch] clause can tell about the value it caught:
    [error instanceof Error ? error.message : fallback]. *)
Inductive thrown :=
| Err (message : jsstring)
| NonErr.

Definition message_or (fallback : jsstring) (e : thrown) : jsstring :=
  match e with Err m => m | NonErr => fallback end.

(** The run-time type errors the route can hit. *)
Inductive fault :=
| DestructureNull
| ReadOfNullish (v : jsvalue) (prop : jsstring)
| NotAFunction (v : json) (prop : jsstring)
| NoPrimitive (v : json).

(** What the route takes from outside: [JSON.parse] ([inl] carries the
    SyntaxError message), the generative model ([generateContent] followed
    by [response.text()]), the engine's wording of its TypeErrors, and its
    writing of the numbers that [Number_toString] leaves to it. *)
Record Env := {
  JSON_parse : jsstring → jsstring + json;
  generateContent : jsstring → thrown + jsstring;
  fault_message : fault → jsstring;
  number_text : spec_float → jsstring;
}.

Definition TypeError (E : Env) (f : fault) : thrown := Err (fault_message E f).

(** ** Input validation *)

(** [v.trim()] on an arbitrary value. *)
Definition call_trim (v : jsvalue) : fault + jsstring :=
  match v with
  | Some (JStr s) => inr (trim s)
  | None => inl (ReadOfNullish None (lit "trim"))
  | Some JNull => inl (ReadOfNullish (Some JNull) (lit "trim"))
  | Some w => inl (NotAFunction w (lit "trim"))
  end.

(** [v.length] of a string. *)
Definition string_length (v : jsvalue) : Z :=
  match v with Some (JStr s) => jslength s | _ => 0 end.

Definition EMPTY_INPUT : jsstring := lit "Ingredients and steps are required.".
Definition INPUT_TOO_LARGE : jsstring :=
  lit "Input is too long. Please reduce the length of ingredients or steps.".

(** [validateInput]: [inr None] is the [null] of the source (input valid),
    [inr (Some msg)] a validation error, [inl f] a TypeError thrown on the
    way.  [||] evaluates [steps.trim()] only when [ingredients.trim()] is
    non-empty. *)
Definition validateInput (ingredients steps : jsvalue) : fault + option jsstring :=
  match call_trim ingredients with
  | inl f => inl f
  | inr ti =>
      if negb (nonempty ti) then inr (Some EMPTY_INPUT)
      else
        match call_trim steps with
        | inl f => inl f
        | inr ts =>
            if negb (nonempty ts) then inr (Some EMPTY_INPUT)
            else
              let combinedLength := string_length ingredients + string_length steps in
              if MAX_TOKENS <? combinedLength then inr (Some INPUT_TOO_LARGE)
              else inr None
        end
  end.

(** ** Prompt *)

(** ToString of a value that [req.json()] gave.  An array is written by
    [Array.prototype.join]: its elements, [null] as the empty string,
    separated by commas.  An object is written by [Object.prototype.toString]
    unless it has a [toString] property of its own: that property, read off
    JSON, is no function, and [valueOf] then gives no primitive, so ToString
    throws a TypeError. *)
Fixpoint ToString (E : Env) (v : json) : fault + jsstring :=
  match v with
  | JNull => inr (lit "null")
  | JBool true => inr (lit "true")
  | JBool false => inr (lit "false")
  | JNum x => inr (Number_toString (number_text E) x)
  | JStr s => inr s
  | JArr items =>
      let elements :=
        (fix elements (l : list json) : fault + list jsstring :=
           match l with
           | [] => inr []
           | x :: t =>
               match (match x with JNull => inr [] | _ => ToString E x end) with
               | inl f => inl f
               | inr text =>
                   match elements t with
                   | inl f => inl f
                   | inr texts => inr (text :: texts)
                   end
               end
           end) in
      match elements items with
      | inl f => inl f
      | inr texts => inr (join (lit ",") texts)
      end
  | JObj props =>
      match assoc (lit "toString") props with
      | Some _ => inl (NoPrimitive v)
      | None => inr (lit "[object Object]")
      end
  end.

(** [${v}] in a template literal: ToString of the value, which can throw. *)
Definition interpolate (E : Env) (v : jsvalue) : fault + jsstring :=
  match v with
  | None => inr (lit "undefined")
  | Some w => ToString E w
  end.

(** The substitutions of a template literal are evaluated from left to
    right; the first that throws ends the evaluation. *)
Definition template (E : Env) (first second third : jsvalue)
    (text : jsstring → jsstring → jsstring → jsstring) : fault + jsstring :=
  match interpolate E first with
  | inl f => inl f
  | inr a =>
      match interpolate E second with
      | inl f => inl f
      | inr b =>
          match interpolate E third with
          | inl f => inl f
          | inr c => inr (text a b c)
          end
      end
  end.

Definition prompt (E : Env) (ingredients steps tone : jsvalue)
  : fault + jsstring :=
  template E tone ingredients steps (λ tone ingredients steps,
  litq "Generate a recipe in JSON format based on these ingredients and steps.

IMPORTANT: You must respond with ONLY valid JSON. No other text or explanation.
The JSON must exactly match this structure:
{
  ~name~: ~Recipe name (make it catchy and SEO-friendly)~,
  ~titleVariations~: [
    ~Original title~,
    ~SEO-optimized variation 1~,
    ~Social media friendly variation 2~,
    ~Question-based variation 3~,
    ~How-to variation 4~
  ],
  ~servings~: ~number of servings as string~,
  ~prepTime~: ~prep time in minutes as string~,
  ~cookTime~: ~cook time in minutes as string~,
  ~ingredients~: [
    ~formatted ingredient 1~,
    ~formatted ingredient 2~,
    ...etc
  ],
  ~instructions~: [
    ~formatted step 1~,
    ~formatted step 2~,
    ...etc
  ]
}

Use " ++ tone ++ lit " tone for instructions.

Ingredients:
" ++ ingredients ++ lit "

Steps:
" ++ steps).

(** ** Response sanitizer *)

Definition BACKTICK : N := 96.
Definition NEWLINE : N := 10.
Definition LBRACE : N := 123.
Definition RBRACE : N := 125.

Fixpoint starts_with (p s : jsstring) : bool :=
  match p, s with
  | [], _ => true
  | a :: p', b :: s' => N.eqb a b && starts_with p' s'
  | _ :: _, [] => false
  end.

(** Length of the match of [/```json\n?|\n?```/] at the head of [s], [O]
    when there is none: first alternative first, each [\n?] greedy. *)
Definition fence_length (s : jsstring) : nat :=
  if starts_with (lit "```json") s then
    if starts_with [NEWLINE] (drop 7 s) then 8%nat else 7%nat
  else if starts_with (NEWLINE :: lit "```") s then 4%nat
  else if starts_with (lit "```") s then 3%nat
  else O.

(** [.replace(/```json\n?|\n?```/g, "")]: scan left to right; where the
    pattern matches, drop the match and go on after it ([skip] counts the
    code units of the current match still to drop). *)
Fixpoint remove_fences (skip : nat) (s : jsstring) : jsstring :=
  match s with
  | [] => []
  | c :: t =>
      match skip with
      | S k => remove_fences k t
      | O =>
          match fence_length s with
          | S k => remove_fences k t
          | O => c :: remove_fences O t
          end
      end
  end.

(** [.replace(/^[\s\n]*\{/, "{")] *)
Definition clean_start (s : jsstring) : jsstring :=
  if starts_with [LBRACE] (trimStart s) then trimStart s else s.

(** [.replace(/\}[\s\n]*$/, "}")]: the leftmost closing brace that only
    white space follows. *)
Fixpoint clean_end (s : jsstring) : jsstring :=
  match s with
  | [] => []
  | c :: t =>
      if N.eqb c RBRACE && forallb is_space t then [RBRACE]
      else c :: clean_end t
  end.

Definition clean (text : jsstring) : jsstring :=
  trim (clean_end (clean_start (remove_fences O text))).

(** ** Recipe checks *)

Definition requiredFields : list jsstring :=
  [lit "name"; lit "titleVariations"; lit "servings"; lit "prepTime";
   lit "cookTime"; lit "ingredients"; lit "instructions"].

Definition missingFields (recipe : json) : list jsstring :=
  List.filter (λ field, negb (truthy (get recipe field))) requiredFields.

Definition non_empty_array (recipe : json) (field : jsstring) : bool :=
  isArray (get recipe field) && negb (length_is_zero (get recipe field)).

(** The checks that follow [JSON.parse] in the [try] block: the value is
    returned as it is, or an error is thrown. *)
Definition checkRecipe (E : Env) (recipe : json) : thrown + json :=
  match recipe with
  | JNull => inl (TypeError E (ReadOfNullish (Some JNull) (lit "name")))
  | _ =>
      if negb (Nat.eqb (List.length (missingFields recipe)) 0) then
        inl (Err (lit "Missing required fields: "
                    ++ join (lit ", ") (missingFields recipe)))
      else if negb (non_empty_array recipe (lit "titleVariations")) then
        inl (Err (lit "titleVariations must be a non-empty array"))
      else if negb (non_empty_array recipe (lit "ingredients")) then
        inl (Err (lit "ingredients must be a non-empty array"))
      else if negb (non_empty_array recipe (lit "instructions")) then
        inl (Err (lit "instructions must be a non-empty array"))
      else inr recipe
  end.

(** The whole [try] body: sanitize, parse, check. *)
Definition parseRecipe (E : Env) (text : jsstring) : thrown + json :=
  match JSON_parse E (clean text) with
  | inl syntax_error => inl (Err syntax_error)
  | inr recipe => checkRecipe E recipe
  end.

(** ** The handler *)

(** [NextResponse.json(data, { status })]: [payload] is the value [data]
    handed over, [status] is 200 when none is given. *)
Record response := { status : Z; payload : json }.

(** [NextResponse.json({ error: msg }, { status })] *)
Definition error_response (msg : jsstring) (code : Z) : response :=
  {| status := code; payload := JObj [(lit "error", JStr msg)] |}.

(** The request as the handler sees it: the [x-forwarded-for] header and
    the outcome of [req.json()]. *)
Record request := {
  forwardedFor : option jsstring;
  body : thrown + json;
}.

(** [s.split(",")[0]] *)
Fixpoint first_segment (s : jsstring) : jsstring :=
  match s with
  | [] => []
  | c :: t => if N.eqb c 44 then [] else c :: first_segment t
  end.

Definition client_ip (req : request) : jsstring :=
  match forwardedFor req with
  | Some h => if nonempty h then first_segment h else lit "unknown"
  | None => lit "unknown"
  end.

(** What the handler does besides answering, in order. *)
Inductive effect :=
| ReadBody
| Generate (prompt : jsstring)
| ConsoleLog (label text : jsstring)
| ConsoleError (label : jsstring) (error : thrown)
| ConsoleErrorText (label text : jsstring).

(** The outer [catch]. *)
Definition generation_error (e : thrown) : response * list effect :=
  (error_response (message_or (lit "Failed to generate recipe") e) 500,
   [ConsoleError (lit "Generation error:") e]).

(** The inner [catch]. *)
Definition format_error (cleanText : jsstring) (e : thrown) : response * list effect :=
  (error_response (lit "Invalid recipe format: " ++ message_or (lit "Unknown error") e) 500,
   [ConsoleError (lit "JSON parsing error:") e;
    ConsoleErrorText (lit "Attempted to parse:") cleanText]).

Definition after (pre : list effect) (r : response * list effect)
  : response * list effect := (r.1, pre ++ r.2).

(** The handler after the rate limit check has let the request through. *)
Definition generate (E : Env) (req : request) : response * list effect :=
  match body req with
  | inl e => after [ReadBody] (generation_error e)
  | inr JNull => after [ReadBody] (generation_error (TypeError E DestructureNull))
  | inr b =>
      let ingredients := get b (lit "ingredients") in
      let steps := get b (lit "steps") in
      let tone := get b (lit "tone") in
      match validateInput ingredients steps with
      | inl f => after [ReadBody] (generation_error (TypeError E f))
      | inr (Some validationError) =>
          (error_response validationError 400, [ReadBody])
      | inr None =>
          match prompt E ingredients steps tone with
          | inl f => after [ReadBody] (generation_error (TypeError E f))
          | inr p =>
              let sent := [ReadBody;
                           ConsoleLog (lit "Sending prompt to Gemini:") p;
                           Generate p] in
              match generateContent E p with
              | inl e => after sent (generation_error e)
              | inr text =>
                  let received :=
                    sent ++ [ConsoleLog (lit "Raw response from Gemini:") text;
                             ConsoleLog (lit "Cleaned text:") (clean text)] in
                  match parseRecipe E text with
                  | inl e => after received (format_error (clean text) e)
                  | inr recipe =>
                      ({| status := 200; payload := recipe |}, received)
                  end
              end
          end
      end
  end.

Definition POST (E : Env) (now : Z) (req : request) (ipRequests : ipStore)
  : response * list effect * ipStore :=
  let '(limited, ipRequests') := isRateLimited now (client_ip req) ipRequests in
  if limited then
    (error_response (lit "Rate limit exceeded. Please try again later.") 429,
     [], ipRequests')
  else (generate E req, ipRequests').

(** ** JSON text

    [JSON.stringify] and [JSON.parse] are built-ins of the engine, not code
    of the route; they are modelled after ECMA-262 (QuoteJSONString,
    SerializeJSONProperty, the JSON grammar of ECMA-404) so that texts can
    be run through the route.  The route itself takes its parser from
    [Env]. *)

Definition QUOTE : N := 34.
Definition BACKSLASH : N := 92.

Definition is_high_surrogate (c : N) : bool := ((55296 <=? c) && (c <=? 56319))%N.
Definition is_low_surrogate (c : N) : bool := ((56320 <=? c) && (c <=? 57343))%N.

Definition hex_digit (n : N) : N := (if n <? 10 then 48 + n else 87 + n)%N.

(** [\uXXXX], four lower-case hexadecimal digits. *)
Definition unicode_escape (c : N) : jsstring :=
  [BACKSLASH; 117%N;
   hex_digit (c / 4096 mod 16); hex_digit (c / 256 mod 16);
   hex_digit (c / 16 mod 16); hex_digit (c mod 16)].

(** How QuoteJSONString writes one code point that is a single code unit. *)
Definition quote_unit (c : N) : jsstring :=
  (if c =? 8 then [BACKSLASH; 98]
   else if c =? 9 then [BACKSLASH; 116]
   else if c =? 10 then [BACKSLASH; 110]
   else if c =? 12 then [BACKSLASH; 102]
   else if c =? 13 then [BACKSLASH; 114]
   else if c =? 34 then [BACKSLASH; 34]
   else if c =? 92 then [BACKSLASH; 92]
   else if (c <? 32) || is_high_surrogate c || is_low_surrogate c
        then unicode_escape c
   else [c])%N.

(** The string is read code point by code point: a high surrogate followed
    by a low one is one code point and is written as it is. *)
Fixpoint quote_chars (s : jsstring) : jsstring :=
  match s with
  | [] => []
  | c :: t =>
      if is_high_surrogate c then
        match t with
        | d :: t' =>
            if is_low_surrogate d then c :: d :: quote_chars t'
            else quote_unit c ++ quote_chars t
        | [] => quote_unit c
        end
      else quote_unit c ++ quote_chars t
  end.

Definition QuoteJSONString (s : jsstring) : jsstring :=
  QUOTE :: quote_chars s ++ [QUOTE].

(** [JSON.stringify(v)] without indentation; [num] is Number::toString,
    used for finite numbers only. *)
Fixpoint JSON_stringify (num : spec_float → jsstring) (v : json) : jsstring :=
  match v with
  | JNull => lit "null"
  | JBool true => lit "true"
  | JBool false => lit "false"
  | JNum S754_nan | JNum (S754_infinity _) => lit "null"
  | JNum x => num x
  | JStr s => QuoteJSONString s
  | JArr items =>
      lit "[" ++ join (lit ",") (List.map (JSON_stringify num) items) ++ lit "]"
  | JObj props =>
      lit "{"
      ++ join (lit ",")
           (List.map (λ kv, QuoteJSONString kv.1 ++ lit ":" ++ JSON_stringify num kv.2)
                     props)
      ++ lit "}"
  end.

(** The body that [NextResponse.json(data)] sends: the text
    [JSON.stringify(data)].  A number that is not finite is written [null]
    there, so the value a client reads can differ from [payload]. *)
Definition body_text (E : Env) (r : response) : jsstring :=
  JSON_stringify (Number_toString (number_text E)) (payload r).

(** The elements of an array of strings, as [JSON_stringify] writes them. *)
Definition quoted_list (l : list jsstring) : jsstring :=
  join (lit ",") (List.map QuoteJSONString l).

(** *** Parsing *)

Definition is_json_space (c : N) : bool :=
  ((c =? 32) || (c =? 9) || (c =? 10) || (c =? 13))%N.

Fixpoint skip_space (s : jsstring) : jsstring :=
  match s with
  | c :: t => if is_json_space c then skip_space t else s
  | [] => []
  end.

Definition hex_value (c : N) : option N :=
  (if (48 <=? c) && (c <=? 57) then Some (c - 48)
   else if (97 <=? c) && (c <=? 102) then Some (c - 87)
   else if (65 <=? c) && (c <=? 70) then Some (c - 55)
   else None)%N.

Definition hex4 (a b c d : N) : option N :=
  match hex_value a, hex_value b, hex_value c, hex_value d with
  | Some x, Some y, Some z, Some w => Some (x * 4096 + y * 256 + z * 16 + w)%N
  | _, _, _, _ => None
  end.

Definition simple_escape (e : N) : option N :=
  (if e =? 34 then Some 34
   else if e =? 92 then Some 92
   else if e =? 47 then Some 47
   else if e =? 98 then Some 8
   else if e =? 102 then Some 12
   else if e =? 110 then Some 10
   else if e =? 114 then Some 13
   else if e =? 116 then Some 9
   else None)%N.

Definition prepend (c : N) (r : option (jsstring * jsstring))
  : option (jsstring * jsstring) :=
  match r with
  | Some (str, rest) => Some (c :: str, rest)
  | None => None
  end.

(** The characters of a string literal after its opening quote, up to and
    including the closing quote: the string and what follows it. *)
Fixpoint parse_chars (s : jsstring) : option (jsstring * jsstring) :=
  match s with
  | [] => None
  | c :: t =>
      if N.eqb c QUOTE then Some ([], t)
      else if N.eqb c BACKSLASH then
        match t with
        | [] => None
        | e :: t1 =>
            if N.eqb e 117 then
              match t1 with
              | a :: b :: c' :: d :: t2 =>
                  match hex4 a b c' d with
                  | Some u => prepend u (parse_chars t2)
                  | None => None
                  end
              | _ => None
              end
            else
              match simple_escape e with
              | Some u => prepend u (parse_chars t1)
              | None => None
              end
        end
      else if N.ltb c 32 then None
      else prepend c (parse_chars t)
  end.

(** Numbers. *)
Definition is_digit (c : N) : bool := ((48 <=? c) && (c <=? 57))%N.

Fixpoint digits (s : jsstring) : list N * jsstring :=
  match s with
  | c :: t =>
      if is_digit c then let '(ds, rest) := digits t in (c :: ds, rest)
      else ([], s)
  | [] => ([], [])
  end.

Definition decimal (ds : list N) : Z :=
  fold_left (λ acc d, 10 * acc + Z.of_N (d - 48)) ds 0.

(** The double nearest to [m * 10 ^ e10] (ties to even), with the sign
    [neg]. *)
Definition to_double (neg : bool) (m e10 : Z) : spec_float :=
  match m with
  | Zpos p =>
      if 0 <=? e10 then
        binary_normalize 53 1024 (if neg then - (m * 10 ^ e10) else m * 10 ^ e10) 0 false
      else
        match 10 ^ (- e10) with
        | Zpos q => SFdiv 53 1024 (S754_finite neg p 0) (S754_finite false q 0)
        | _ => S754_nan
        end
  | _ => S754_zero neg
  end.

Definition parse_number (s : jsstring) : option (spec_float * jsstring) :=
  let '(neg, s1) :=
    match s with
    | c :: t => if N.eqb c 45 then (true, t) else (false, s)
    | [] => (false, s)
    end in
  let '(int, s2) :=
    match s1 with
    | c :: t => if N.eqb c 48 then ([c], t) else digits s1
    | [] => ([], [])
    end in
  match int with
  | [] => None
  | _ =>
      let frac_part :=
        match s2 with
        | c :: t =>
            if N.eqb c 46 then
              match digits t with
              | ([], _) => None
              | (fs, rest) => Some (fs, rest)
              end
            else Some ([], s2)
        | [] => Some ([], s2)
        end in
      match frac_part with
      | None => None
      | Some (frac, s3) =>
          let exp_part :=
            match s3 with
            | c :: t =>
                if N.eqb c 101 || N.eqb c 69 then
                  let '(eneg, t') :=
                    match t with
                    | sg :: t'' =>
                        if N.eqb sg 45 then (true, t'')
                        else if N.eqb sg 43 then (false, t'')
                        else (false, t)
                    | [] => (false, t)
                    end in
                  match digits t' with
                  | ([], _) => None
                  | (es, rest) =>
                      Some (if eneg then - decimal es else decimal es, rest)
                  end
                else Some (0, s3)
            | [] => Some (0, s3)
            end in
          match exp_part with
          | None => None
          | Some (e, rest) =>
              Some (to_double neg (decimal (int ++ frac))
                      (e - Z.of_nat (List.length frac)), rest)
          end
      end
  end.

(** An array index: the decimal writing, with no superfluous zero, of an
    integer below 2^32 - 1. *)
Definition array_index (k : jsstring) : option Z :=
  match k with
  | [] => None
  | c :: t =>
      if forallb is_digit k && (negb (N.eqb c 48) || Nat.eqb (List.length t) 0)
      then if decimal k <? 2 ^ 32 - 1 then Some (decimal k) else None
      else None
  end.

(** The order in which an object lists its own keys
    (OrdinaryOwnPropertyKeys): the array indices first, in ascending
    order, then the other keys in the order of their creation.
    [precedes k k'] tells that a new key [k] is listed before the key [k']
    that is already there. *)
Definition precedes (k k' : jsstring) : bool :=
  match array_index k, array_index k' with
  | Some n, Some n' => n <? n'
  | Some _, None => true
  | None, _ => false
  end.

(** CreateDataProperty on the object under construction: a repeated key
    overwrites the earlier value where it is, a new key takes its place in
    the order of the keys. *)
Fixpoint set_prop (k : jsstring) (v : json) (props : list (jsstring * json))
  : list (jsstring * json) :=
  match props with
  | [] => [(k, v)]
  | (k', v') :: rest =>
      if decide (k' = k) then (k, v) :: rest
      else if precedes k k' then (k, v) :: props
      else (k', v') :: set_prop k v rest
  end.

(** Recursive descent over values, array elements and object members;
    [fuel] bounds the depth of the calls. *)
Fixpoint parse_value (fuel : nat) (s : jsstring) : option (json * jsstring) :=
  match fuel with
  | O => None
  | S fuel =>
      match skip_space s with
      | [] => None
      | c :: t =>
          if N.eqb c 123 then
            match skip_space t with
            | [] => None
            | c' :: t' =>
                if N.eqb c' 125 then Some (JObj [], t')
                else parse_members fuel [] (c' :: t')
            end
          else if N.eqb c 91 then
            match skip_space t with
            | [] => None
            | c' :: t' =>
                if N.eqb c' 93 then Some (JArr [], t')
                else parse_elements fuel [] (c' :: t')
            end
          else if N.eqb c QUOTE then
            match parse_chars t with
            | Some (str, rest) => Some (JStr str, rest)
            | None => None
            end
          else if starts_with (lit "true") (c :: t) then
            Some (JBool true, drop 4 (c :: t))
          else if starts_with (lit "false") (c :: t) then
            Some (JBool false, drop 5 (c :: t))
          else if starts_with (lit "null") (c :: t) then
            Some (JNull, drop 4 (c :: t))
          else
            match parse_number (c :: t) with
            | Some (x, rest) => Some (JNum x, rest)
            | None => None
            end
      end
  end
with parse_elements (fuel : nat) (acc : list json) (s : jsstring)
  : option (json * jsstring) :=
  match fuel with
  | O => None
  | S fuel =>
      match parse_value fuel s with
      | None => None
      | Some (v, rest) =>
          match skip_space rest with
          | [] => None
          | c :: t =>
              if N.eqb c 44 then parse_elements fuel (v :: acc) t
              else if N.eqb c 93 then Some (JArr (rev (v :: acc)), t)
              else None
          end
      end
  end
with parse_members (fuel : nat) (acc : list (jsstring * json)) (s : jsstring)
  : option (json * jsstring) :=
  match fuel with
  | O => None
  | S fuel =>
      match skip_space s with
      | [] => None
      | c :: t =>
          if N.eqb c QUOTE then
            match parse_chars t with
            | None => None
            | Some (key, rest) =>
                match skip_space rest with
                | [] => None
                | c' :: t' =>
                    if N.eqb c' 58 then
                      match parse_value fuel t' with
                      | None => None
                      | Some (v, rest') =>
                          match skip_space rest' with
                          | [] => None
                          | c'' :: t'' =>
                              if N.eqb c'' 44 then
                                parse_members fuel (set_prop key v acc) t''
                              else if N.eqb c'' 125 then
                                Some (JObj (set_prop key v acc), t'')
                              else None
                          end
                      end
                    else None
                end
            end
          else None
      end
  end.

(** The object [JSON.parse] builds from the members [props] of an object
    literal. *)
Definition build_object (props acc : list (jsstring * json))
  : list (jsstring * json) :=
  fold_left (λ a kv, set_prop kv.1 kv.2 a) props acc.

(** With fuel [b] or more, the parser reads the value [v] off the front of
    [txt ++ tail], whatever [tail] is. *)
Definition reads (b : nat) (txt : jsstring) (v : json) : Prop :=
  ∀ g tail, (b ≤ g)%nat → parse_value g (txt ++ tail) = Some (v, tail).

(** How [JSON_stringify] writes one member of an object. *)
Definition member_text (num : spec_float → jsstring) (kv : jsstring * json)
  : jsstring :=
  QuoteJSONString kv.1 ++ lit ":" ++ JSON_stringify num kv.2.

(** [JSON.parse(text)]: one value, then nothing but white space; [None] is
    a SyntaxError. *)
Definition JSON_parse_model (text : jsstring) : option json :=
  match parse_value (2 * List.length text + 2) text with
  | Some (v, rest) =>
      match skip_space rest with
      | [] => Some v
      | _ => None
      end
  | None => None
  end.

(** ** Recipes *)

Record Recipe := {
  name : jsstring;
  titleVariations : list jsstring;
  servings : jsstring;
  prepTime : jsstring;
  cookTime : jsstring;
  ingredients : list jsstring;
  instructions : list jsstring;
}.

(** The recipe as a JavaScript object. *)
Definition recipe_object (r : Recipe) : json :=
  JObj [(lit "name", JStr (name r));
        (lit "titleVariations", JArr (List.map JStr (titleVariations r)));
        (lit "servings", JStr (servings r));
        (lit "prepTime", JStr (prepTime r));
        (lit "cookTime", JStr (cookTime r));
        (lit "ingredients", JArr (List.map JStr (ingredients r)));
        (lit "instructions", JArr (List.map JStr (instructions r)))].

(** [JSON.stringify(recipe)]; there is no number in a recipe. *)
Definition recipe_text (r : Recipe) : jsstring :=
  JSON_stringify (λ _, []) (recipe_object r).

(** The invariant of the data model: the three sequences are non-empty. *)
Definition well_formed (r : Recipe) : Prop :=
  titleVariations r ≠ [] ∧ ingredients r ≠ [] ∧ instructions r ≠ [].

(** Every string of the recipe. *)
Definition strings_of (r : Recipe) : list jsstring :=
  [name r; servings r; prepTime r; cookTime r]
    ++ titleVariations r ++ ingredients r ++ instructions r.

(** Following [s] from a run of [k] backticks: the length of the run at
    the end of [s], or [None] once three backticks are in a row. *)
Fixpoint scan (k : nat) (s : jsstring) : option nat :=
  match s with
  | [] => Some k
  | c :: t =>
      if N.eqb c BACKTICK then
        if Nat.leb 2 k then None else scan (S k) t
      else scan O t
  end.

(** The text between a [```json] line and a closing fence line. *)
Definition fenced (text : jsstring) : jsstring :=
  lit "```json" ++ NEWLINE :: text ++ NEWLINE :: lit "```".

(** An engine for running examples: the model parser, a generative model
    that always answers [reply], and fixed wordings. *)
Definition stub_engine (reply : jsstring) : Env :=
  {| JSON_parse text :=
       match JSON_parse_model text with
       | Some v => inr v
       | None => inl (lit "Unexpected token in JSON")
       end;
     generateContent _ := inr reply;
     fault_message f :=
       match f with
       | DestructureNull => lit "Cannot destructure property of null"
       | ReadOfNullish _ _ => lit "Cannot read properties of null or undefined"
       | NotAFunction _ _ => lit "not a function"
       | NoPrimitive _ => lit "Cannot convert object to primitive value"
       end;
     number_text _ := lit "[number]" |}.

(** ** Vocabulary of the statements *)

(** Empty once trimmed. *)
Definition blank (s : jsstring) : Prop := trim s = [].

(** Three backticks in a row somewhere in [s]. *)
Fixpoint has_fence (s : jsstring) : bool :=
  match s with
  | [] => false
  | _ :: t => starts_with (lit "```") s || has_fence t
  end.

(** Number of places where three backticks start (overlaps counted). *)
Fixpoint fence_occurrences (s : jsstring) : nat :=
  match s with
  | [] => O
  | _ :: t =>
      ((if starts_with (lit "```") s then 1 else 0) + fence_occurrences t)%nat
  end.

(** Number of fence delimiters the global replace finds in [s]. *)
Fixpoint count_fences (skip : nat) (s : jsstring) : nat :=
  match s with
  | [] => O
  | _ :: t =>
      match skip with
      | S k => count_fences k t
      | O =>
          match fence_length s with
          | S k => S (count_fences k t)
          | O => count_fences O t
          end
      end
  end.

Definition backtick_free (s : jsstring) : Prop := Forall (λ c, c ≠ BACKTICK) s.

(** Texts whose backticks all come in groups of three. *)
Inductive tidy : jsstring → Prop :=
| tidy_nil : tidy []
| tidy_char c s : c ≠ BACKTICK → tidy s → tidy (c :: s)
| tidy_fence s : tidy s → tidy (BACKTICK :: BACKTICK :: BACKTICK :: s).

Definition two_fields : json :=
  JObj [(lit "name", JStr (lit "X")); (lit "servings", JStr (lit "2"))].

Definition empty_ingredients (extra : list (jsstring * json)) : json :=
  JObj (extra ++
        [(lit "name", JStr (lit "X")); (lit "servings", JStr (lit "2"));
         (lit "prepTime", JStr (lit "5")); (lit "cookTime", JStr (lit "5"));
         (lit "ingredients", JArr []);
         (lit "instructions", JArr [JStr (lit "step")])]).

(** A recipe whose name holds three backticks. *)
Definition backtick_recipe : Recipe :=
  {| name := lit "a```b";
     titleVariations := [lit "Pancakes"];
     servings := lit "2";
     prepTime := lit "5";
     cookTime := lit "15";
     ingredients := [lit "2 eggs"; lit "1 cup flour"];
     instructions := [lit "Mix ingredients"; lit "Bake until golden"] |}.

Definition pancakes : Recipe :=
  {| name := lit "Simple Pancakes";
     titleVariations := [lit "Simple Pancakes"; lit "How to make pancakes"];
     servings := lit "2";
     prepTime := lit "5";
     cookTime := lit "15";
     ingredients := [lit "2 eggs"; lit "1 cup flour"];
     instructions := [lit "Mix ingredients"; lit "Bake until golden"] |}.

(** The request of the end-to-end scenario, from one client. *)
Definition pancake_request : request :=
  {| forwardedFor := Some (lit "203.0.113.7, 10.0.0.1");
     body := inr (JObj [(lit "ingredients", JStr (lit "2 eggs, 1 cup flour"));
                        (lit "steps", JStr (lit "mix, bake"));
                        (lit "tone", JStr (lit "concise"))]) |}.

(** The request of [pancake_request] with, for the tone, an object that has
    a [toString] property of its own. *)
Definition odd_tone_request : request :=
  {| forwardedFor := Some (lit "203.0.113.9");
     body := inr (JObj [(lit "ingredients", JStr (lit "2 eggs, 1 cup flour"));
                        (lit "steps", JStr (lit "mix, bake"));
                        (lit "tone",
                         JObj [(lit "toString", JNum (S754_finite false 1 0))])]) |}.

(** A reply with all seven fields whose name is a number too large for a
    double. *)
Definition huge_name_reply : jsstring :=
  litq "{~name~:1e400,~titleVariations~:[~a~],~servings~:~2~,~prepTime~:~5~,~cookTime~:~5~,~ingredients~:[~b~],~instructions~:[~c~]}".

(** A request whose [ingredients] is the empty string and whose [steps] is
    absent. *)
Definition no_steps_request : request :=
  {| forwardedFor := None;
     body := inr (JObj [(lit "ingredients", JStr [])]) |}.

(** A request whose [ingredients] is a number and whose [steps] is absent. *)
Definition number_request : request :=
  {| forwardedFor := None;
     body := inr (JObj [(lit "ingredients", JNum (S754_finite false 1 0))]) |}.

Definition is_string (v : jsvalue) : Prop := ∃ s, v = Some (JStr s).

Definition falsy_recipe : json :=
  JObj [(lit "name", JStr []);
        (lit "titleVariations", JArr [JStr (lit "t")]);
        (lit "servings", JNum (S754_zero false));
        (lit "prepTime", JStr (lit "5"));
        (lit "cookTime", JStr (lit "5"));
        (lit "ingredients", JArr [JStr (lit "egg")]);
        (lit "instructions", JArr [JStr (lit "mix")])].

(** Twenty requests of one client a minute apart, after a request of
    another client and a sweep. *)
Definition busy_hour : list event :=
  Request 99999999 (lit "10.0.0.2")
    :: Sweep 30000
    :: List.map (λ k : nat, Request (60000 * Z.of_nat k) (lit "10.0.0.1"))
         (seq 1 20).

(** ** Runs of the store and of the handler *)

Definition event_time (e : event) : Z :=
  match e with Request now _ => now | Sweep now => now end.

(** The store after one event, and after a list of them. *)
Definition step (m : ipStore) (e : event) : ipStore :=
  match e with
  | Request now ip => (isRateLimited now ip m).2
  | Sweep now => sweep now m
  end.

Definition run (evs : list event) (m : ipStore) : ipStore :=
  fold_left step evs m.

(** The clock does not go back: every event is at or after [since] and
    after the events before it. *)
Fixpoint nondecreasing (since : Z) (evs : list event) : Prop :=
  match evs with
  | [] => True
  | e :: rest => since ≤ event_time e ∧ nondecreasing (event_time e) rest
  end.

Definition is_request (e : event) : bool :=
  match e with Request _ _ => true | Sweep _ => false end.

(** The requests of [ip] and the sweeps. *)
Definition concerns (ip : jsstring) (e : event) : bool :=
  match e with
  | Request _ ip' => bool_decide (ip' = ip)
  | Sweep _ => true
  end.

(** Every entry counts between one request and the maximum. *)
Definition bounded_counts (m : ipStore) : Prop :=
  ∀ ip d, m !! ip = Some d → 1 ≤ count d ≤ MAX_REQUESTS_PER_IP.

(** [m1] is [m2] after some sweeps up to time [s]: they agree on a key, or
    [m1] has dropped an entry of [m2] that was older than the window at
    [s]. *)
Definition swept (s : Z) (m1 m2 : ipStore) : Prop :=
  ∀ ip, m1 !! ip = m2 !! ip
        ∨ m1 !! ip = None
          ∧ ∃ d, m2 !! ip = Some d ∧ RATE_LIMIT_WINDOW < s - timestamp d.

(** What the server goes through: a request handled by [POST] (with the
    engine of that moment, the model answering differently from call to
    call) or a tick of the sweep. *)
Inductive happening :=
| Arrival (E : Env) (now : Z) (req : request)
| Cleanup (now : Z).

Definition as_event (h : happening) : event :=
  match h with
  | Arrival _ now req => Request now (client_ip req)
  | Cleanup now => Sweep now
  end.

(** The responses to the requests of client key [ip], oldest first. *)
Fixpoint answers (ip : jsstring) (hs : list happening) (m : ipStore)
  : list response :=
  match hs with
  | [] => []
  | Cleanup now :: hs' => answers ip hs' (sweep now m)
  | Arrival E now req :: hs' =>
      let '(resp, _, m') := POST E now req m in
      if decide (client_ip req = ip) then resp :: answers ip hs' m'
      else answers ip hs' m'
  end.

Definition COMMA : N := 44.

Definition is_generate (e : effect) : bool :=
  match e with Generate _ => true | _ => false end.

(** Number of calls of the model among the effects. *)
Definition model_calls (effects : list effect) : nat :=
  List.length (List.filter is_generate effects).

(** Twenty-one requests without the forwarding header and with an empty
    body object, a second apart, the engine always the same. *)
Definition anonymous_burst : list happening :=
  List.map (λ k : nat,
              Arrival (stub_engine []) (1000 * Z.of_nat k)
                      {| forwardedFor := None; body := inr (JObj []) |})
           (seq 1 20).

(** ** The earlier variants of the route

    The first variant has neither rate limiter nor input validation; from
    the prompt on it is the same text as the rate-limited one. *)

Definition generate_recipe (E : Env) (ingredients steps tone : jsvalue)
  : response * list effect :=
  match prompt E ingredients steps tone with
  | inl f => generation_error (TypeError E f)
  | inr p =>
      let sent := [ConsoleLog (lit "Sending prompt to Gemini:") p; Generate p] in
      match generateContent E p with
      | inl e => after sent (generation_error e)
      | inr text =>
          let received :=
            sent ++ [ConsoleLog (lit "Raw response from Gemini:") text;
                     ConsoleLog (lit "Cleaned text:") (clean text)] in
          match parseRecipe E text with
          | inl e => after received (format_error (clean text) e)
          | inr recipe => ({| status := 200; payload := recipe |}, received)
          end
      end
  end.

Definition POST_first (E : Env) (req : request) : response * list effect :=
  match body req with
  | inl e => after [ReadBody] (generation_error e)
  | inr JNull => after [ReadBody] (generation_error (TypeError E DestructureNull))
  | inr b =>
      after [ReadBody]
        (generate_recipe E (get b (lit "ingredients")) (get b (lit "steps"))
                         (get b (lit "tone")))
  end.

(** The minimal variant: six-field prompt, its own sanitizer, no check of
    the parsed value, one message for every failure. *)

Definition prompt_minimal (E : Env) (ingredients steps tone : jsvalue)
  : fault + jsstring :=
  template E tone ingredients steps (λ tone ingredients steps,
  lit "You are a JSON generator for recipes. Generate a recipe in valid JSON format based on the following input.
Use this tone: " ++ tone ++ lit "

Ingredients:
" ++ ingredients ++ lit "

Steps:
" ++ steps ++ litq "

IMPORTANT: Respond ONLY with a valid JSON object. Do not include any other text, markdown, or code blocks.
The JSON must exactly match this structure:
{
  ~name~: ~Recipe name based on ingredients~,
  ~servings~: ~Reasonable number based on ingredients~,
  ~prepTime~: ~Estimated prep time in minutes~,
  ~cookTime~: ~Estimated cook time in minutes~,
  ~ingredients~: [~Array of formatted ingredients~],
  ~instructions~: [~Array of formatted instructions~]
}").

Definition ends_with (p s : jsstring) : bool := starts_with (rev p) (rev s).

Definition strip_prefix (p s : jsstring) : jsstring :=
  if starts_with p s then drop (List.length p) s else s.

Definition strip_suffix (p s : jsstring) : jsstring :=
  if ends_with p s then take (List.length s - List.length p) s else s.

(** [.replace(/^```json\n|```$/g, "")]: the first alternative can only
    match at the start and the second only at the end, after the first. *)
Definition remove_outer_fence (s : jsstring) : jsstring :=
  strip_suffix (lit "```") (strip_prefix (lit "```json" ++ [NEWLINE]) s).

Definition clean_minimal (text : jsstring) : jsstring :=
  trim (remove_outer_fence text).

Definition minimal_failure (e : thrown) (done : list effect)
  : response * list effect :=
  (error_response (lit "Failed to generate recipe. Please try again.") 500,
   done ++ [ConsoleError (lit "Generation error:") e]).

Definition POST_minimal (E : Env) (req : request) : response * list effect :=
  match body req with
  | inl e => minimal_failure e [ReadBody]
  | inr JNull => minimal_failure (TypeError E DestructureNull) [ReadBody]
  | inr b =>
      match prompt_minimal E (get b (lit "ingredients")) (get b (lit "steps"))
                           (get b (lit "tone")) with
      | inl f => minimal_failure (TypeError E f) [ReadBody]
      | inr p =>
          match generateContent E p with
          | inl e => minimal_failure e [ReadBody; Generate p]
          | inr text =>
              match JSON_parse E (clean_minimal text) with
              | inl syntax_error =>
                  minimal_failure (Err syntax_error) [ReadBody; Generate p]
              | inr jsonResponse =>
                  ({| status := 200; payload := jsonResponse |},
                   [ReadBody; Generate p])
              end
          end
      end
  end.

(** ** The export to WP Recipe Maker ([page.tsx])

    [formatRecipeForWPRM] builds an object literal from a [Recipe]; the
    object is kept as a JavaScript value. *)

(** The value of the code unit [c] as a digit in [radix], if it is one. *)
Definition digit_value (radix c : N) : option N :=
  let v := (if (48 <=? c) && (c <=? 57) then Some (c - 48)
            else if (97 <=? c) && (c <=? 122) then Some (c - 87)
            else if (65 <=? c) && (c <=? 90) then Some (c - 55)
            else None)%N in
  match v with
  | Some d => if (d <? radix)%N then Some d else None
  | None => None
  end.

Fixpoint leading_digits (radix : N) (s : jsstring) : list N :=
  match s with
  | c :: t =>
      match digit_value radix c with
      | Some d => d :: leading_digits radix t
      | None => []
      end
  | [] => []
  end.

Definition digits_value (radix : N) (ds : list N) : N :=
  fold_left (λ acc d, acc * radix + d)%N ds 0%N.

(** [parseInt(s)] with no radix given: leading white space, a sign, [0x]
    or [0X] for radix 16, then the longest run of digits; [NaN] when there
    is no digit.  The integer is read exactly and rounded to the nearest
    double (for radix 10 an engine may replace the digits after the
    twentieth significant one by zeros; the properties below are about
    numbers of a few digits). *)
Definition parseInt (s : jsstring) : spec_float :=
  let s1 := trimStart s in
  let '(neg, s2) :=
    match s1 with
    | c :: t =>
        if N.eqb c 45 then (true, t)
        else if N.eqb c 43 then (false, t)
        else (false, s1)
    | [] => (false, s1)
    end in
  let '(radix, s3) :=
    match s2 with
    | a :: b :: t =>
        if N.eqb a 48 && (N.eqb b 120 || N.eqb b 88) then (16%N, t)
        else (10%N, s2)
    | _ => (10%N, s2)
    end in
  match leading_digits radix s3 with
  | [] => S754_nan
  | ds => to_double neg (Z.of_N (digits_value radix ds)) 0
  end.

Definition number_add (x y : spec_float) : spec_float := SFadd 53 1024 x y.

Definition total_time (other : spec_float → jsstring) (recipe : Recipe)
  : jsstring :=
  Number_toString other
    (number_add (parseInt (prepTime recipe)) (parseInt (cookTime recipe))).

Definition ZERO : json := JNum (S754_zero false).

Definition formatRecipeForWPRM (other : spec_float → jsstring) (recipe : Recipe)
  : json :=
  JObj
    [(lit "type", JStr (lit "food"));
     (lit "name", JStr (name recipe));
     (lit "summary", JStr []);
     (lit "author_display", JStr (lit "disabled"));
     (lit "servings", JStr (servings recipe));
     (lit "servings_unit", JStr (lit "servings"));
     (lit "prep_time", JStr (prepTime recipe));
     (lit "cook_time", JStr (cookTime recipe));
     (lit "total_time", JStr (total_time other recipe));
     (lit "tags",
      JObj [(lit "course", JArr []); (lit "cuisine", JArr []);
            (lit "keyword", JArr []); (lit "difficulty", JArr [])]);
     (lit "equipment", JArr []);
     (lit "ingredients_flat",
      JArr (List.map
              (λ ingredient,
                 JObj [(lit "amount", JStr []); (lit "unit", JStr []);
                       (lit "name", JStr ingredient); (lit "notes", JStr []);
                       (lit "type", JStr (lit "ingredient"))])
              (ingredients recipe)));
     (lit "instructions_flat",
      JArr (List.map
              (λ instruction,
                 JObj [(lit "text", JStr instruction);
                       (lit "type", JStr (lit "instruction"));
                       (lit "image_url", JStr [])])
              (instructions recipe)));
     (lit "notes", JStr []);
     (lit "nutrition",
      JObj [(lit "calories", ZERO); (lit "carbohydrates", ZERO);
            (lit "protein", ZERO); (lit "fat", ZERO);
            (lit "saturated_fat", ZERO); (lit "cholesterol", ZERO);
            (lit "sodium", ZERO); (lit "potassium", ZERO);
            (lit "fiber", ZERO); (lit "sugar", ZERO);
            (lit "vitamin_a", ZERO); (lit "vitamin_c", ZERO);
            (lit "calcium", ZERO); (lit "iron", ZERO)])].

(** The text [rest] after the decimal writing of [n] leaves the number as
    it is: it is empty, or starts with something that is no digit and, after
    a lone [0], is neither [x] nor [X] (which would make [0x] the prefix
    of a hexadecimal number). *)
Definition ends_number (n : N) (rest : jsstring) : Prop :=
  match rest with
  | [] => True
  | c :: _ => is_digit c = false ∧ (n = 0%N → c ≠ 120%N ∧ c ≠ 88%N)
  end.

(** No number at the start: once leading white space is gone, the text is
    empty or starts with something other than a digit or a sign. *)
Definition starts_without_number (s : jsstring) : Prop :=
  match trimStart s with
  | [] => True
  | c :: _ => is_digit c = false ∧ c ≠ 45%N ∧ c ≠ 43%N
  end.

(** All sums of two numbers below [k] come out of the addition and of
    Number::toString as their decimal writing. *)
Definition sums_below (k : nat) : bool :=
  forallb
    (λ a, forallb
            (λ b, bool_decide
                    (Number_toString (λ _, [])
                       (number_add (to_double false (Z.of_nat a) 0)
                                   (to_double false (Z.of_nat b) 0))
                     = to_decimal (N.of_nat (a + b))))
            (seq 0 k))
    (seq 0 k).

(** Two recipes that differ in their title variations at most. *)
Definition same_but_titles (r1 r2 : Recipe) : Prop :=
  name r1 = name r2 ∧ servings r1 = servings r2
  ∧ prepTime r1 = prepTime r2 ∧ cookTime r1 = cookTime r2
  ∧ ingredients r1 = ingredients r2 ∧ instructions r1 = instructions r2.

(** ** The recipe history of the page ([page.tsx])

    The expressions that build and change [recipeHistory] and the title
    choices, with values at their declared types ([SavedRecipe] is a
    [Recipe] with an [id] and a [createdAt]). *)

Module History.

Record SavedRecipe := {
  saved : Recipe;
  id : jsstring;
  createdAt : jsstring;
}.

(** [{ ...data, id: Date.now().toString(), createdAt: new Date().toISOString() }],
    [now] being the milliseconds [Date.now()] gives and [iso] the text of
    [toISOString()]. *)
Definition newSavedRecipe (data : Recipe) (now : N) (iso : jsstring)
  : SavedRecipe :=
  {| saved := data; id := to_decimal now; createdAt := iso |}.

(** [[newSavedRecipe, ...recipeHistory]] *)
Definition updatedHistory (data : Recipe) (now : N) (iso : jsstring)
    (recipeHistory : list SavedRecipe) : list SavedRecipe :=
  newSavedRecipe data now iso :: recipeHistory.

(** [recipeHistory.filter((r) => r.id !== id)] *)
Definition deleteRecipe (id0 : jsstring) (recipeHistory : list SavedRecipe)
  : list SavedRecipe :=
  List.filter (λ r, negb (bool_decide (id r = id0))) recipeHistory.

(** The current recipe after [deleteRecipe]: cleared when it is the one
    deleted. *)
Definition recipe_after_delete (id0 : jsstring) (recipe : option SavedRecipe)
  : option SavedRecipe :=
  match recipe with
  | Some r => if bool_decide (id r = id0) then None else Some r
  | None => None
  end.

(** [{ ...r, name: value }] *)
Definition with_name (value : jsstring) (r : SavedRecipe) : SavedRecipe :=
  {| saved := {| name := value;
                 titleVariations := titleVariations (saved r);
                 servings := servings (saved r);
                 prepTime := prepTime (saved r);
                 cookTime := cookTime (saved r);
                 ingredients := ingredients (saved r);
                 instructions := instructions (saved r) |};
     id := id r;
     createdAt := createdAt r |}.

(** [recipeHistory.map((r) => r.id === recipe.id ? { ...r, name: value } : r)] *)
Definition rename (value : jsstring) (recipe : SavedRecipe)
    (recipeHistory : list SavedRecipe) : list SavedRecipe :=
  List.map (λ r, if bool_decide (id r = id recipe) then with_name value r else r)
           recipeHistory.

(** The items of the title select: the current name, then the title
    variations other than it. *)
Definition title_choices (recipe : SavedRecipe) : list jsstring :=
  name (saved recipe)
    :: List.filter (λ title, negb (bool_decide (title = name (saved recipe))))
                   (titleVariations (saved recipe)).

End History.

(* ================================================================== *)
(** * Properties *)

(** ** Rate limiter *)

Section RateLimiter.

Implicit Types (m : ipStore) (ip : jsstring) (now : Z).

Lemma isRateLimited_opens now ip m :
  opens_window now ip m →
  isRateLimited now ip m
  = (false, <[ip := {| count := 1; timestamp := now |}]> m).
Proof.
  unfold isRateLimited.
  intros [-> | (d & -> & Hold)]; [done|].
  by apply Z.ltb_lt in Hold as ->.
Qed.

Lemma isRateLimited_other now ip ip' m :
  ip' ≠ ip → (isRateLimited now ip' m).2 !! ip = m !! ip.
Proof.
  intros Hne. unfold isRateLimited.
  destruct (m !! ip') as [d|]; simpl.
  - destruct (_ <? _); simpl; [by rewrite lookup_insert_ne|].
    destruct (_ <=? _); simpl; [done|by rewrite lookup_insert_ne].
  - by rewrite lookup_insert_ne.
Qed.

Lemma sweep_keeps now ip m d :
  m !! ip = Some d → now - timestamp d ≤ RATE_LIMIT_WINDOW →
  sweep now m !! ip = Some d.
Proof.
  intros Hm Hin. unfold sweep.
  apply map_lookup_filter_Some. split; [done|]. simpl.
  apply negb_true_iff, Z.ltb_ge, Hin.
Qed.

(** Inside a window that started at [t1] with [c] requests counted so far,
    the next requests of [ip] are answered by the counter alone. *)
Lemma decisions_in_window ip t1 evs : ∀ m c,
  m !! ip = Some {| count := c; timestamp := t1 |} →
  Forall (in_window ip t1) evs →
  decisions ip evs m
  = (λ k : nat, bool_decide (MAX_REQUESTS_PER_IP ≤ c + Z.of_nat k))
      <$> seq 0 (requests_of ip evs).
Proof.
  induction evs as [|[now ip'|now] evs IH]; intros m c Hm Hall; [done| |].
  - apply Forall_cons in Hall as [Hnow Hall]. simpl in Hnow. simpl.
    destruct (isRateLimited now ip' m) as [limited m'] eqn:Hstep.
    destruct (decide (ip' = ip)) as [->|Hne].
    + specialize (Hnow eq_refl).
      unfold isRateLimited in Hstep. rewrite Hm in Hstep. simpl in Hstep.
      destruct (Z.ltb_spec RATE_LIMIT_WINDOW (now - t1)); [lia|].
      unfold MAX_REQUESTS_PER_IP in *.
      destruct (Z.leb_spec 20 c); simplify_eq; simpl.
      * f_equal; [rewrite bool_decide_eq_true_2; [done|lia]|].
        rewrite (IH _ c) by done.
        rewrite <- (fmap_S_seq 0), <- list_fmap_compose.
        apply list_fmap_ext. intros _ k _. simpl.
        apply bool_decide_ext. lia.
      * f_equal; [rewrite bool_decide_eq_false_2; [done|lia]|].
        rewrite (IH _ (c + 1)); [|by rewrite lookup_insert_eq|done].
        rewrite <- (fmap_S_seq 0), <- list_fmap_compose.
        apply list_fmap_ext. intros _ k _. simpl.
        apply bool_decide_ext. lia.
    + apply (IH m' c); [|done].
      replace m' with (isRateLimited now ip' m).2 by (by rewrite Hstep).
      by rewrite isRateLimited_other.
  - apply Forall_cons in Hall as [Hnow Hall]. simpl in Hnow. simpl.
    apply (IH _ c); [|done]. by apply sweep_keeps.
Qed.

(** C1.  From the request that opens a window for a client key, and while
    every later request of that key and every sweep happens within one
    window length of it (requests of other keys may come at any time), the
    k-th request of that key is denied exactly when k > 20: the 20th is
    allowed and the 21st denied.  Once more than one window length has
    passed since the entry's timestamp, the check resets the entry to count
    1 at the current time and allows. *)
Theorem rate_limiter_window ip t1 evs m :
  opens_window t1 ip m →
  Forall (in_window ip t1) evs →
  decisions ip (Request t1 ip :: evs) m
  = (λ k : nat, bool_decide (20 < S k)%nat) <$> seq 0 (S (requests_of ip evs))
  ∧ ∀ now m' d,
      m' !! ip = Some d → RATE_LIMIT_WINDOW < now - timestamp d →
      isRateLimited now ip m'
      = (false, <[ip := {| count := 1; timestamp := now |}]> m').
Proof.
  intros Hopen Hall. split.
  - simpl. rewrite (isRateLimited_opens _ _ _ Hopen).
    rewrite decide_True by done. f_equal.
    rewrite (decisions_in_window ip t1 evs _ 1);
      [|by rewrite lookup_insert_eq|done].
    rewrite <- (fmap_S_seq 0), <- list_fmap_compose.
    apply list_fmap_ext. intros _ k _. simpl.
    apply bool_decide_ext. unfold MAX_REQUESTS_PER_IP. lia.
  - intros now m' d Hd Hold. apply isRateLimited_opens. right. eauto.
Qed.

(** Twenty-one requests of one key, one minute apart, from an empty store,
    with a request of another key much later in between: twenty allowed,
    then one denied. *)
Lemma rate_limiter_window_witness :
  decisions (lit "10.0.0.1") (Request 0 (lit "10.0.0.1") :: busy_hour) ∅
  = repeat false 20 ++ [true].
Proof.
  destruct (rate_limiter_window (lit "10.0.0.1") 0 busy_hour ∅) as [H _].
  - by left.
  - unfold busy_hour. simpl.
    repeat constructor; simpl; try discriminate;
      intros _; unfold RATE_LIMIT_WINDOW; lia.
  - rewrite H. reflexivity.
Defined.

(** C8.  A denied check leaves the store as it was: with an entry inside
    its window whose count has reached the maximum, [isRateLimited] answers
    [true] and returns the same map, so count and timestamp are unchanged. *)
Theorem denied_check_keeps_state now ip m d :
  m !! ip = Some d →
  now - timestamp d ≤ RATE_LIMIT_WINDOW →
  MAX_REQUESTS_PER_IP ≤ count d →
  isRateLimited now ip m = (true, m)
  ∧ (isRateLimited now ip m).2 !! ip = Some d.
Proof.
  intros Hd Hin Hmax. unfold isRateLimited. rewrite Hd.
  destruct (Z.ltb_spec RATE_LIMIT_WINDOW (now - timestamp d)); [lia|].
  destruct (Z.leb_spec MAX_REQUESTS_PER_IP (count d)); [done|lia].
Qed.

Lemma denied_check_keeps_state_witness :
  let m : ipStore := {[ lit "10.0.0.1" := {| count := 20; timestamp := 1000 |} ]} in
  isRateLimited 5000 (lit "10.0.0.1") m = (true, m)
  ∧ (isRateLimited 5000 (lit "10.0.0.1") m).2 !! lit "10.0.0.1"
    = Some {| count := 20; timestamp := 1000 |}.
Proof.
  apply denied_check_keeps_state;
    [apply lookup_singleton_eq
    |simpl; unfold RATE_LIMIT_WINDOW; lia
    |simpl; unfold MAX_REQUESTS_PER_IP; lia].
Defined.

End RateLimiter.

(** ** Input validator *)

Section InputValidator.

Implicit Types (i s : jsstring).

Lemma nonempty_false (s : jsstring) : nonempty s = false ↔ s = [].
Proof. by destruct s. Qed.

Lemma validateInput_strings i s :
  validateInput (Some (JStr i)) (Some (JStr s))
  = if negb (nonempty (trim i)) || negb (nonempty (trim s))
    then inr (Some EMPTY_INPUT)
    else if MAX_TOKENS <? jslength i + jslength s
         then inr (Some INPUT_TOO_LARGE) else inr None.
Proof.
  unfold validateInput. simpl.
  destruct (nonempty (trim i)); simpl; [|done].
  by destruct (nonempty (trim s)).
Qed.

(** C5, as the code has it.  On a pair of strings the validator accepts
    exactly when both are non-empty after trimming and the combined length
    is at most 30000; it answers the empty-input error when either is blank,
    and the too-large error when neither is blank and the combined length
    exceeds 30000 (the emptiness test comes first). *)
Theorem validateInput_cases i s :
  (validateInput (Some (JStr i)) (Some (JStr s)) = inr None
   ↔ ¬ blank i ∧ ¬ blank s ∧ jslength i + jslength s ≤ 30000)
  ∧ (blank i ∨ blank s →
     validateInput (Some (JStr i)) (Some (JStr s)) = inr (Some EMPTY_INPUT))
  ∧ (¬ blank i → ¬ blank s → 30000 < jslength i + jslength s →
     validateInput (Some (JStr i)) (Some (JStr s)) = inr (Some INPUT_TOO_LARGE)).
Proof.
  rewrite validateInput_strings. unfold blank, MAX_TOKENS.
  rewrite <- !nonempty_false.
  destruct (nonempty (trim i)), (nonempty (trim s)); simpl;
    destruct (Z.ltb_spec 30000 (jslength i + jslength s));
    repeat split; try done; try lia; intuition (try discriminate; try lia).
Qed.

Lemma validateInput_cases_witness :
  validateInput (Some (JStr (lit "2 eggs, 1 cup flour"))) (Some (JStr (lit "mix, bake")))
  = inr None.
Proof.
  apply (validateInput_cases (lit "2 eggs, 1 cup flour") (lit "mix, bake")).
  unfold blank. repeat split; [discriminate|discriminate|vm_compute; discriminate].
Defined.

(** C5 as worded does not hold: 30001 spaces and a one-letter step list
    exceed the maximum together, yet the answer is the empty-input error. *)
Lemma validateInput_too_large_counterexample :
  let i := repeat 32%N (Z.to_nat 30001) in
  let s := lit "x" in
  30000 < jslength i + jslength s
  ∧ validateInput (Some (JStr i)) (Some (JStr s)) = inr (Some EMPTY_INPUT)
  ∧ validateInput (Some (JStr i)) (Some (JStr s)) ≠ inr (Some INPUT_TOO_LARGE).
Proof. vm_compute. repeat split; discriminate. Qed.

End InputValidator.

(** ** Recipe checks *)

Section RecipeChecks.

Variable E : Env.

(** C2, as the code has it.  On the parsed object with only [name] and
    [servings], the check throws the missing-fields error naming five
    fields: [titleVariations] and the four of the claim, in the order of
    [requiredFields]. *)
Theorem missing_fields_of_two_fields :
  missingFields two_fields
  = [lit "titleVariations"; lit "prepTime"; lit "cookTime";
     lit "ingredients"; lit "instructions"]
  ∧ checkRecipe E two_fields
    = inl (Err (lit "Missing required fields: titleVariations, prepTime, cookTime, ingredients, instructions")).
Proof. split; reflexivity. Qed.

(** C2 as worded does not hold: the list is not the four names. *)
Lemma missing_fields_four_counterexample :
  missingFields two_fields
  ≠ [lit "prepTime"; lit "cookTime"; lit "ingredients"; lit "instructions"].
Proof. vm_compute. discriminate. Qed.

(** C3, as the code has it.  The six-field object with an empty
    [ingredients] array fails the presence check first, on
    [titleVariations] alone (an empty array is truthy, so [ingredients]
    is not listed); with a non-empty [titleVariations] array added, it
    fails with the non-empty-array error on [ingredients]. *)
Theorem empty_ingredients_rejected :
  checkRecipe E (empty_ingredients [])
  = inl (Err (lit "Missing required fields: titleVariations"))
  ∧ checkRecipe E (empty_ingredients [(lit "titleVariations", JArr [JStr (lit "X")])])
    = inl (Err (lit "ingredients must be a non-empty array")).
Proof. split; reflexivity. Qed.

(** C3 as worded does not hold: the error is not the one on [ingredients]. *)
Lemma empty_ingredients_counterexample :
  checkRecipe (stub_engine []) (empty_ingredients [])
  = inl (Err (lit "Missing required fields: titleVariations"))
  ∧ checkRecipe (stub_engine []) (empty_ingredients [])
    ≠ inl (Err (lit "ingredients must be a non-empty array")).
Proof. split; [reflexivity|vm_compute; discriminate]. Qed.

Lemma missingFields_In (recipe : json) (field : jsstring) :
  In field (missingFields recipe)
  ↔ In field requiredFields ∧ truthy (get recipe field) = false.
Proof.
  unfold missingFields. rewrite filter_In.
  by rewrite negb_true_iff.
Qed.

(** C9.  A required field bound to a falsy value (empty string, zero,
    false, null) counts as absent: the check throws the missing-fields
    error and that field is among the names it lists. *)
Theorem falsy_field_is_missing (props : list (jsstring * json))
    (field : jsstring) (v : json) :
  In field requiredFields →
  assoc field props = Some v →
  truthy (Some v) = false →
  In field (missingFields (JObj props))
  ∧ checkRecipe E (JObj props)
    = inl (Err (lit "Missing required fields: "
                  ++ join (lit ", ") (missingFields (JObj props)))).
Proof.
  intros Hreq Hget Hfalsy.
  assert (Hin : In field (missingFields (JObj props))).
  { apply missingFields_In. simpl. by rewrite Hget. }
  split; [done|].
  unfold checkRecipe.
  destruct (missingFields (JObj props)); [destruct Hin|done].
Qed.

End RecipeChecks.

(** A recipe complete but for an empty [name] and a zero where the
    servings should be: [name] is reported. *)
Lemma falsy_field_is_missing_witness :
  In (lit "name") (missingFields falsy_recipe)
  ∧ checkRecipe (stub_engine []) falsy_recipe
    = inl (Err (lit "Missing required fields: "
                  ++ join (lit ", ") (missingFields falsy_recipe))).
Proof.
  apply (falsy_field_is_missing (stub_engine []) _ (lit "name") (JStr []));
    [by left|reflexivity|reflexivity].
Defined.

(** ** Response sanitizer *)

Section Sanitizer.

Implicit Types (s t x : jsstring) (c : N).

Lemma BACKTICK_not_space : is_space BACKTICK = false.
Proof. reflexivity. Qed.

(** *** Trimming *)

Lemma trimStart_all_space s : forallb is_space s = true → trimStart s = [].
Proof.
  induction s as [|c t IH]; [done|]. simpl.
  intros [-> Ht]%andb_true_iff. auto.
Qed.

Lemma trimStart_idem s : trimStart (trimStart s) = trimStart s.
Proof.
  induction s as [|c t IH]; [done|]. simpl.
  destruct (is_space c) eqn:Hc; [done|]. simpl. by rewrite Hc.
Qed.

Lemma trimEnd_all_space s : forallb is_space s = true → trimEnd s = [].
Proof. destruct s as [|c t]; [done|]. simpl. by intros ->. Qed.

Lemma trimEnd_all_space_iff s : forallb is_space (trimEnd s) = forallb is_space s.
Proof.
  induction s as [|c t IH]; [done|].
  cbn [trimEnd]. destruct (forallb is_space (c :: t)) eqn:Hall; [done|].
  simpl in *. by rewrite IH.
Qed.

Lemma trimEnd_idem s : trimEnd (trimEnd s) = trimEnd s.
Proof.
  induction s as [|c t IH]; [done|].
  cbn [trimEnd]. destruct (forallb is_space (c :: t)) eqn:Hall; [done|].
  cbn [trimEnd]. replace (forallb is_space (c :: trimEnd t)) with false.
  - by rewrite IH.
  - simpl in *. by rewrite trimEnd_all_space_iff.
Qed.

Lemma trimEnd_trimStart s : trimEnd (trimStart s) = trimStart (trimEnd s).
Proof.
  induction s as [|c t IH]; [done|].
  cbn [trimStart trimEnd].
  destruct (is_space c) eqn:Hc.
  - destruct (forallb is_space (c :: t)) eqn:Hall.
    + simpl in Hall. rewrite Hc in Hall. simpl in Hall.
      by rewrite (trimStart_all_space _ Hall).
    + simpl. by rewrite Hc.
  - simpl. rewrite Hc. simpl. by rewrite Hc.
Qed.

Lemma trim_idem s : trim (trim s) = trim s.
Proof.
  unfold trim.
  by rewrite <- trimEnd_trimStart, trimStart_idem, trimEnd_idem.
Qed.

Lemma trimStart_length s : (length (trimStart s) ≤ length s)%nat.
Proof.
  induction s as [|c t IH]; [done|]. simpl.
  destruct (is_space c); simpl; lia.
Qed.

Lemma trimEnd_length s : (length (trimEnd s) ≤ length s)%nat.
Proof.
  induction s as [|c t IH]; [done|]. cbn [trimEnd].
  destruct (forallb _ _); simpl; lia.
Qed.

Lemma trim_length s : (length (trim s) ≤ length s)%nat.
Proof.
  unfold trim. etrans; [apply trimEnd_length|apply trimStart_length].
Qed.

(** The two anchored replacements only remove white space that [trim]
    removes anyway. *)
Lemma clean_end_all_space s :
  forallb is_space (clean_end s) = forallb is_space s.
Proof.
  induction s as [|c t IH]; [done|]. simpl.
  destruct (N.eqb_spec c RBRACE) as [->|Hc]; simpl; [|by rewrite IH].
  by destruct (forallb is_space t).
Qed.

Lemma trimEnd_clean_end s : trimEnd (clean_end s) = trimEnd s.
Proof.
  induction s as [|c t IH]; [done|].
  cbn [clean_end].
  destruct (N.eqb c RBRACE && forallb is_space t) eqn:Hm.
  - apply andb_true_iff in Hm as [->%N.eqb_eq Ht].
    cbn [trimEnd]. rewrite (trimEnd_all_space _ Ht). reflexivity.
  - cbn [trimEnd]. cbn [forallb]. by rewrite clean_end_all_space, IH.
Qed.

Lemma trim_clean_end s : trim (clean_end s) = trim s.
Proof.
  unfold trim. by rewrite !trimEnd_trimStart, trimEnd_clean_end.
Qed.

Lemma trim_clean_start s : trim (clean_start s) = trim s.
Proof.
  unfold clean_start, trim.
  destruct (starts_with _ _); [by rewrite trimStart_idem|done].
Qed.

(** The sanitizer is: drop the fence delimiters, then trim. *)
Lemma clean_eq x : clean x = trim (remove_fences O x).
Proof. unfold clean. by rewrite trim_clean_end, trim_clean_start. Qed.

(** *** Removing the fences *)

Lemma remove_fences_skip k s : remove_fences k s = remove_fences O (drop k s).
Proof.
  revert s. induction k as [|k IH]; intros s; [done|].
  destruct s as [|c t]; [done|]. simpl. apply IH.
Qed.

Lemma remove_fences_cons c t :
  remove_fences O (c :: t)
  = match fence_length (c :: t) with
    | S k => remove_fences O (drop k t)
    | O => c :: remove_fences O t
    end.
Proof.
  cbn [remove_fences]. destruct (fence_length (c :: t)); [done|].
  apply remove_fences_skip.
Qed.

Lemma remove_fences_length s :
  (length (remove_fences O s) ≤ length s)%nat.
Proof.
  remember (length s) as n eqn:Hn.
  revert s Hn. induction (lt_wf n) as [n _ IH]; intros s ->.
  destruct s as [|c t]; [done|].
  rewrite remove_fences_cons.
  destruct (fence_length (c :: t)) as [|k].
  - simpl. specialize (IH (length t) ltac:(simpl; lia) t eq_refl). lia.
  - specialize (IH (length (drop k t))
                  ltac:(rewrite length_drop; simpl; lia) _ eq_refl).
    rewrite length_drop in IH. simpl. lia.
Qed.

Lemma starts_with_app_l p q s :
  starts_with (p ++ q) s
  = starts_with p s && starts_with q (drop (length p) s).
Proof.
  revert s. induction p as [|a p IH]; intros s; [done|].
  destruct s as [|b s]; simpl; [done|].
  by rewrite IH, andb_assoc.
Qed.

Lemma fence_length_no_fence c t :
  starts_with (lit "```") (c :: t) = false →
  starts_with (lit "```") t = false →
  fence_length (c :: t) = O.
Proof.
  intros H0 H1. unfold fence_length.
  change (lit "```json") with (lit "```" ++ lit "json").
  change (NEWLINE :: lit "```") with ([NEWLINE] ++ lit "```").
  rewrite !starts_with_app_l, H0.
  change (drop (length [NEWLINE]) (c :: t)) with t.
  by rewrite H1, andb_false_r.
Qed.

Lemma remove_fences_no_fence s :
  has_fence s = false → remove_fences O s = s.
Proof.
  induction s as [|c t IH]; [done|].
  cbn [has_fence]. intros [H0 Ht]%orb_false_iff.
  rewrite remove_fences_cons, fence_length_no_fence, IH; try done.
  destruct t as [|c' t']; [done|]. cbn [has_fence] in Ht.
  by apply orb_false_iff in Ht as [? _].
Qed.

Lemma fence_length_at_fence s :
  starts_with (lit "```") s = true → (3 ≤ fence_length s)%nat.
Proof.
  intros H. unfold fence_length.
  destruct (starts_with (lit "```json") s);
    [destruct (starts_with [NEWLINE] _); lia|].
  destruct (starts_with (NEWLINE :: lit "```") s); [lia|].
  rewrite H. lia.
Qed.

Lemma remove_fences_shrinks s :
  has_fence s = true → (length (remove_fences O s) < length s)%nat.
Proof.
  induction s as [|c t IH]; [done|].
  cbn [has_fence]. intros H.
  rewrite remove_fences_cons.
  destruct (fence_length (c :: t)) as [|k] eqn:Hlen.
  - destruct (starts_with (lit "```") (c :: t)) eqn:H0.
    + apply fence_length_at_fence in H0. lia.
    + simpl in H. specialize (IH H). simpl. lia.
  - pose proof (remove_fences_length (drop k t)) as Hle.
    rewrite length_drop in Hle. simpl. lia.
Qed.

(** Fences and substrings. *)
Lemma has_fence_suffix s t :
  has_fence (s ++ t) = false → has_fence t = false.
Proof.
  induction s as [|c s IH]; [done|]. simpl.
  intros [_ H]%orb_false_iff. auto.
Qed.

Lemma starts_with_app p s t :
  starts_with p s = true → starts_with p (s ++ t) = true.
Proof.
  revert s. induction p as [|a p IH]; intros [|b s]; simpl; try done.
  intros [-> H]%andb_true_iff. simpl. auto.
Qed.

Lemma has_fence_prefix s t :
  has_fence (s ++ t) = false → has_fence s = false.
Proof.
  induction s as [|c s IH]; [done|]. cbn [app has_fence].
  intros [H0 H]%orb_false_iff. apply orb_false_iff. split; [|auto].
  destruct (starts_with (lit "```") (c :: s)) eqn:Hs; [|done].
  apply (starts_with_app _ _ t) in Hs. simpl in *. congruence.
Qed.

Lemma trimStart_suffix s : ∃ w, s = w ++ trimStart s.
Proof.
  induction s as [|c t [w IH]]; [by exists []|]. simpl.
  destruct (is_space c); [|by exists []].
  exists (c :: w). simpl. by rewrite <- IH.
Qed.

Lemma trimEnd_prefix s : ∃ w, s = trimEnd s ++ w.
Proof.
  induction s as [|c t [w IH]]; [by exists []|]. cbn [trimEnd].
  destruct (forallb _ _); [by exists (c :: t)|].
  exists w. simpl. by rewrite <- IH.
Qed.

Lemma has_fence_trim s : has_fence s = false → has_fence (trim s) = false.
Proof.
  intros H. unfold trim.
  destruct (trimStart_suffix s) as [w Hw].
  rewrite Hw in H. apply has_fence_suffix in H.
  destruct (trimEnd_prefix (trimStart s)) as [w' Hw'].
  rewrite Hw' in H. by apply has_fence_prefix in H.
Qed.

(** Cleaning twice changes nothing exactly when the first cleaning left no
    three backticks in a row. *)
Lemma cleaning_twice_iff x :
  clean (clean x) = clean x ↔ has_fence (clean x) = false.
Proof.
  split.
  - intros Heq. destruct (has_fence (clean x)) eqn:Hf; [|done].
    apply remove_fences_shrinks in Hf.
    pose proof (trim_length (remove_fences O (clean x))) as Hle.
    rewrite <- clean_eq, Heq in Hle. lia.
  - intros Hf. rewrite (clean_eq (clean x)), (remove_fences_no_fence _ Hf).
    rewrite clean_eq. apply trim_idem.
Qed.

(** *** Texts whose only backticks are fence delimiters *)

Lemma tidy_drop_free k s :
  tidy s → Forall (λ c, c ≠ BACKTICK) (take k s) → tidy (drop k s).
Proof.
  revert s. induction k as [|k IH]; intros s Hs Hfree; [done|].
  destruct s as [|c t]; [done|]. simpl in *.
  apply Forall_cons in Hfree as [Hc Hfree].
  inversion Hs; subst; [auto|done].
Qed.

Lemma starts_with_spec p s : starts_with p s = true ↔ ∃ t, s = p ++ t.
Proof.
  revert s. induction p as [|a p IH]; intros s; simpl.
  - split; [by exists s|done].
  - destruct s as [|b s]; [split; [done|by intros [? ?]]|].
    rewrite andb_true_iff, N.eqb_eq, IH. split.
    + intros [-> [t ->]]. by exists t.
    + intros [t [= -> ->]]. eauto.
Qed.

Lemma starts_with_head a p c t :
  c ≠ a → starts_with (a :: p) (c :: t) = false.
Proof. intros Hne. cbn [starts_with]. by destruct (N.eqb_spec a c). Qed.

Lemma remove_fences_tidy s : tidy s → backtick_free (remove_fences O s).
Proof.
  remember (length s) as n eqn:Hn.
  revert s Hn. induction (lt_wf n) as [n _ IH]; intros s -> Hs.
  assert (IH' : ∀ t, (length t < length s)%nat → tidy t →
                     backtick_free (remove_fences O t)) by eauto.
  clear IH. inversion Hs as [|c t Hc Ht|t Ht]; subst.
  - constructor.
  - rewrite remove_fences_cons. unfold fence_length.
    change (lit "```json") with (BACKTICK :: lit "``json").
    change (lit "```") with (BACKTICK :: lit "``").
    rewrite !(starts_with_head BACKTICK) by done.
    destruct (starts_with (NEWLINE :: BACKTICK :: lit "``") (c :: t)) eqn:Hnl.
    + apply starts_with_spec in Hnl as [t' Heq].
      change (c :: t = NEWLINE :: BACKTICK :: BACKTICK :: BACKTICK :: t') in Heq.
      injection Heq as -> ->.
      change (backtick_free (remove_fences O t')).
      inversion Ht as [|? ? Hb|]; subst; [done|].
      apply IH'; [simpl; lia|done].
    + constructor; [done|]. apply IH'; [simpl; lia|done].
  - rewrite remove_fences_cons. unfold fence_length.
    replace (starts_with (NEWLINE :: lit "```") _) with false by done.
    destruct (starts_with (lit "```json") _) eqn:Hj.
    + apply starts_with_spec in Hj as [t' Heq].
      change (BACKTICK :: BACKTICK :: BACKTICK :: t
              = BACKTICK :: BACKTICK :: BACKTICK :: lit "json" ++ t') in Heq.
      injection Heq as ->.
      destruct (starts_with [NEWLINE] _) eqn:Hn.
      * apply starts_with_spec in Hn as [t'' Hn].
        change (t' = NEWLINE :: t'') in Hn. subst t'.
        change (backtick_free (remove_fences O t'')).
        apply IH'; [simpl; lia|].
        apply (tidy_drop_free 5 (lit "json" ++ NEWLINE :: t'') Ht).
        repeat constructor; discriminate.
      * change (backtick_free (remove_fences O t')).
        apply IH'; [simpl; lia|].
        apply (tidy_drop_free 4 (lit "json" ++ t') Ht).
        repeat constructor; discriminate.
    + replace (starts_with (lit "```") _) with true by done.
      change (backtick_free (remove_fences O t)).
      apply IH'; [simpl; lia|done].
Qed.

Lemma backtick_free_no_fence s : backtick_free s → has_fence s = false.
Proof.
  induction 1 as [|c t Hc _ IH]; [done|]. cbn [has_fence]. rewrite IH.
  change (lit "```") with (BACKTICK :: lit "``").
  by rewrite starts_with_head.
Qed.

Lemma tidy_app s t : tidy s → tidy t → tidy (s ++ t).
Proof.
  induction 1; intros Ht; simpl; [done|apply tidy_char|apply tidy_fence]; auto.
Qed.

Lemma backtick_free_tidy s : backtick_free s → tidy s.
Proof. induction 1; by constructor. Qed.

(** C6, as the code has it.  On a text with at most one pair of fence
    delimiters and no backtick outside of them (that is, [pre ++ f1 ++ mid
    ++ f2 ++ post] with [pre], [mid], [post] free of backticks and each of
    [f1], [f2] three backticks or nothing) cleaning twice is the same as
    cleaning once. *)
Theorem clean_idempotent (pre f1 mid f2 post : jsstring) :
  backtick_free pre → backtick_free mid → backtick_free post →
  f1 = [] ∨ f1 = lit "```" →
  f2 = [] ∨ f2 = lit "```" →
  let x := pre ++ f1 ++ mid ++ f2 ++ post in
  clean (clean x) = clean x.
Proof.
  intros Hpre Hmid Hpost Hf1 Hf2 x.
  apply cleaning_twice_iff. rewrite clean_eq.
  apply has_fence_trim, backtick_free_no_fence, remove_fences_tidy.
  assert (Hfence : ∀ f, f = [] ∨ f = lit "```" → tidy f).
  { intros f [->| ->]; [apply tidy_nil|apply tidy_fence, tidy_nil]. }
  subst x. repeat apply tidy_app; auto using backtick_free_tidy.
Qed.

(** The fenced reply of the end-to-end scenario, shortened. *)
Lemma clean_idempotent_witness :
  let x := lit "```json
{ }
```" in
  clean (clean x) = clean x ∧ clean x = lit "{ }".
Proof.
  split; [|reflexivity].
  apply (clean_idempotent [] (lit "```") (lit "json
{ }
") (lit "```") []);
    try (by right); repeat constructor; discriminate.
Defined.

(** C6 as worded does not hold: this text has a single fence delimiter
    (two overlapping places where three backticks start), and removing it
    joins the backticks around it into a new one, which a second cleaning
    removes. *)
Lemma clean_idempotent_counterexample :
  let x := lit "``
````" in
  count_fences O x = 1%nat
  ∧ fence_occurrences x = 2%nat
  ∧ clean x = lit "```"
  ∧ clean (clean x) = []
  ∧ clean (clean x) ≠ clean x.
Proof. vm_compute. repeat split; discriminate. Qed.

End Sanitizer.

(** ** JSON text of a recipe and back *)

Section JsonRoundTrip.

Implicit Types (s t rest : jsstring) (c : N) (f : nat).

Lemma hex_value_digit n : (n < 16)%N → hex_value (hex_digit n) = Some n.
Proof.
  intros Hn. unfold hex_value, hex_digit.
  destruct (N.ltb_spec n 10).
  - replace ((48 <=? 48 + n) && (48 + n <=? 57))%N with true.
    + f_equal. lia.
    + symmetry. apply andb_true_iff. split; apply N.leb_le; lia.
  - replace ((48 <=? 87 + n) && (87 + n <=? 57))%N with false.
    + replace ((97 <=? 87 + n) && (87 + n <=? 102))%N with true; [f_equal; lia|].
      symmetry. apply andb_true_iff. split; apply N.leb_le; lia.
    + symmetry. apply andb_false_iff. right. apply N.leb_gt. lia.
Qed.

Lemma hex4_escape c :
  (c < 65536)%N →
  hex4 (hex_digit (c / 4096 mod 16)) (hex_digit (c / 256 mod 16))
       (hex_digit (c / 16 mod 16)) (hex_digit (c mod 16)) = Some c.
Proof.
  intros Hc. unfold hex4.
  rewrite !hex_value_digit by (apply N.mod_lt; done).
  f_equal. zify. Z.to_euclidean_division_equations. lia.
Qed.

Lemma parse_chars_escape c t :
  (c < 65536)%N →
  parse_chars (unicode_escape c ++ t) = prepend c (parse_chars t).
Proof.
  intros Hc. unfold unicode_escape. cbn [app parse_chars].
  change (N.eqb BACKSLASH QUOTE) with false.
  change (N.eqb BACKSLASH BACKSLASH) with true.
  change (N.eqb 117 117) with true. cbv iota.
  by rewrite hex4_escape.
Qed.

Lemma parse_chars_literal c t :
  c ≠ QUOTE → c ≠ BACKSLASH → (32 ≤ c)%N →
  parse_chars (c :: t) = prepend c (parse_chars t).
Proof.
  intros Hq Hb Hc. cbn [parse_chars].
  destruct (N.eqb_spec c QUOTE); [done|].
  destruct (N.eqb_spec c BACKSLASH); [done|].
  destruct (N.ltb_spec c 32); [lia|done].
Qed.

Lemma parse_chars_quote_unit c t :
  parse_chars (quote_unit c ++ t) = prepend c (parse_chars t).
Proof.
  unfold quote_unit.
  destruct (N.eqb_spec c 8) as [->|?]; [reflexivity|].
  destruct (N.eqb_spec c 9) as [->|?]; [reflexivity|].
  destruct (N.eqb_spec c 10) as [->|?]; [reflexivity|].
  destruct (N.eqb_spec c 12) as [->|?]; [reflexivity|].
  destruct (N.eqb_spec c 13) as [->|?]; [reflexivity|].
  destruct (N.eqb_spec c 34) as [->|?]; [reflexivity|].
  destruct (N.eqb_spec c 92) as [->|?]; [reflexivity|].
  destruct (_ || _) eqn:Hesc.
  - apply parse_chars_escape.
    unfold is_high_surrogate, is_low_surrogate in Hesc.
    repeat (apply orb_true_iff in Hesc as [Hesc|Hesc]);
      repeat (apply andb_true_iff in Hesc as [Hesc ?]);
      repeat match goal with
             | H : (_ <? _)%N = true |- _ => apply N.ltb_lt in H
             | H : (_ <=? _)%N = true |- _ => apply N.leb_le in H
             end; lia.
  - apply orb_false_iff in Hesc as [[Hlow _]%orb_false_iff _].
    apply N.ltb_ge in Hlow.
    apply parse_chars_literal; unfold QUOTE, BACKSLASH; done.
Qed.

Lemma surrogate_literal c :
  is_high_surrogate c = true ∨ is_low_surrogate c = true →
  c ≠ QUOTE ∧ c ≠ BACKSLASH ∧ (32 ≤ c)%N.
Proof.
  unfold is_high_surrogate, is_low_surrogate, QUOTE, BACKSLASH.
  intros [[?%N.leb_le ?%N.leb_le]%andb_true_iff
         |[?%N.leb_le ?%N.leb_le]%andb_true_iff]; lia.
Qed.

(** Reading back what QuoteJSONString wrote gives the string. *)
Lemma parse_chars_quote s rest :
  parse_chars (quote_chars s ++ QUOTE :: rest) = Some (s, rest).
Proof.
  remember (length s) as n eqn:Hn.
  revert s Hn. induction (lt_wf n) as [n _ IH]; intros s ->.
  destruct s as [|c t]; [reflexivity|].
  assert (Hunit : parse_chars ((quote_unit c ++ quote_chars t) ++ QUOTE :: rest)
                  = Some (c :: t, rest)).
  { rewrite <- app_assoc, parse_chars_quote_unit.
    by rewrite (IH (length t) ltac:(simpl; lia) t eq_refl). }
  cbn [quote_chars].
  destruct (is_high_surrogate c) eqn:Hhigh; [|done].
  destruct t as [|d t']; [rewrite app_nil_r in Hunit; done|].
  destruct (is_low_surrogate d) eqn:Hlow; [|done].
  destruct (surrogate_literal c) as (? & ? & ?); [by left|].
  destruct (surrogate_literal d) as (? & ? & ?); [by right|].
  cbn [app]. rewrite !parse_chars_literal by done.
  by rewrite (IH (length t') ltac:(simpl; lia) t' eq_refl).
Qed.

(** Unfolding the parser one step. *)
Lemma parse_value_string f s rest :
  parse_value (S f) (QuoteJSONString s ++ rest) = Some (JStr s, rest).
Proof.
  unfold QuoteJSONString. cbn [app].
  rewrite <- app_assoc. cbn [app].
  change (parse_value (S f) (QUOTE :: ?t))
    with (match parse_chars t with
          | Some (str, rest) => Some (JStr str, rest)
          | None => None
          end).
  by rewrite parse_chars_quote.
Qed.

Lemma parse_elements_S f acc s :
  parse_elements (S f) acc s
  = match parse_value f s with
    | None => None
    | Some (v, rest) =>
        match skip_space rest with
        | [] => None
        | c :: t =>
            if N.eqb c 44 then parse_elements f (v :: acc) t
            else if N.eqb c 93 then Some (JArr (rev (v :: acc)), t)
            else None
        end
    end.
Proof. reflexivity. Qed.

Lemma parse_elements_strings (l : list jsstring) : ∀ f acc rest,
  l ≠ [] → (length l < f)%nat →
  parse_elements f acc (quoted_list l ++ 93%N :: rest)
  = Some (JArr (rev acc ++ List.map JStr l), rest).
Proof.
  induction l as [|s l IH]; intros f acc rest Hne Hf; [done|].
  destruct f as [|f]; [simpl in Hf; lia|].
  destruct f as [|f]; [simpl in Hf; lia|].
  rewrite parse_elements_S. unfold quoted_list.
  destruct l as [|s' l'].
  - cbn [List.map join]. rewrite parse_value_string. reflexivity.
  - change (join (lit ",") (List.map QuoteJSONString (s :: s' :: l')))
      with (QuoteJSONString s ++ 44%N :: quoted_list (s' :: l')).
    rewrite <- app_assoc, parse_value_string. cbn [app skip_space].
    change (is_json_space 44) with false. cbv iota.
    change (N.eqb 44 44) with true. cbv iota.
    rewrite IH; [|done|simpl in *; lia].
    cbn [rev List.map]. by rewrite <- app_assoc.
Qed.

Lemma parse_value_strings f (l : list jsstring) rest :
  l ≠ [] → (length l < f)%nat →
  parse_value (S f) (91%N :: quoted_list l ++ 93%N :: rest)
  = Some (JArr (List.map JStr l), rest).
Proof.
  intros Hne Hf.
  destruct l as [|s l]; [done|].
  assert (Hhead : ∃ t, quoted_list (s :: l) ++ 93%N :: rest = QUOTE :: t).
  { unfold quoted_list, QuoteJSONString.
    destruct l; cbn [List.map join app]; eauto. }
  destruct Hhead as [t Ht].
  pose proof (parse_elements_strings (s :: l) f [] rest Hne Hf) as Hp.
  rewrite Ht in *. exact Hp.
Qed.

Lemma reads_string s : reads 1 (QuoteJSONString s) (JStr s).
Proof.
  intros [|g] tail Hg; [lia|]. apply parse_value_string.
Qed.

Lemma stringify_strings num (l : list jsstring) :
  JSON_stringify num (JArr (List.map JStr l))
  = 91%N :: quoted_list l ++ [93%N].
Proof.
  cbn [JSON_stringify]. unfold quoted_list.
  rewrite map_map. reflexivity.
Qed.

Lemma reads_strings num (l : list jsstring) :
  l ≠ [] →
  reads (length l + 2) (JSON_stringify num (JArr (List.map JStr l)))
        (JArr (List.map JStr l)).
Proof.
  intros Hne g tail Hg. rewrite stringify_strings.
  destruct g as [|g]; [lia|].
  cbn [app]. rewrite <- app_assoc. cbn [app].
  apply parse_value_strings; [done|lia].
Qed.

Lemma parse_members_step f acc k v txt c rest :
  parse_value f (txt ++ c :: rest) = Some (v, c :: rest) →
  is_json_space c = false →
  parse_members (S f) acc (QuoteJSONString k ++ 58%N :: txt ++ c :: rest)
  = if N.eqb c 44 then parse_members f (set_prop k v acc) rest
    else if N.eqb c 125 then Some (JObj (set_prop k v acc), rest)
    else None.
Proof.
  intros Hv Hc. unfold QuoteJSONString. cbn [app].
  rewrite <- app_assoc. cbn [app].
  change (parse_members (S f) acc (QUOTE :: ?t))
    with (match parse_chars t with
          | None => None
          | Some (key, rest1) =>
              match skip_space rest1 with
              | [] => None
              | c' :: t' =>
                  if N.eqb c' 58 then
                    match parse_value f t' with
                    | None => None
                    | Some (v, rest') =>
                        match skip_space rest' with
                        | [] => None
                        | c'' :: t'' =>
                            if N.eqb c'' 44 then
                              parse_members f (set_prop key v acc) t''
                            else if N.eqb c'' 125 then
                              Some (JObj (set_prop key v acc), t'')
                            else None
                        end
                    end
                  else None
              end
          end).
  rewrite parse_chars_quote. cbn [skip_space].
  change (is_json_space 58) with false. cbv iota.
  change (N.eqb 58 58) with true. cbv iota.
  rewrite Hv. cbn [skip_space]. by rewrite Hc.
Qed.

(** The members of an object literal, read one after the other. *)
Lemma parse_members_props num b (props : list (jsstring * json)) :
  ∀ f acc rest,
  props ≠ [] →
  Forall (λ kv, reads b (JSON_stringify num kv.2) kv.2) props →
  (length props + b ≤ f)%nat →
  parse_members f acc
    (join (lit ",") (List.map (member_text num) props) ++ 125%N :: rest)
  = Some (JObj (build_object props acc), rest).
Proof.
  induction props as [|[k v] props IH]; intros f acc rest Hne Hall Hf; [done|].
  apply Forall_cons in Hall as [Hv Hall]. simpl in Hv.
  destruct f as [|f]; [simpl in Hf; lia|].
  destruct props as [|kv' props'].
  - cbn [List.map join]. unfold member_text at 1. cbn [fst snd].
    change (lit ":") with [58%N].
    rewrite <- !app_assoc. cbn [app].
    rewrite (parse_members_step f acc k v); [reflexivity| |reflexivity].
    apply Hv. simpl in Hf. lia.
  - change (join (lit ",") (List.map (member_text num) ((k, v) :: kv' :: props')))
      with (member_text num (k, v)
            ++ 44%N :: join (lit ",") (List.map (member_text num) (kv' :: props'))).
    unfold member_text at 1. cbn [fst snd].
    change (lit ":") with [58%N].
    rewrite <- !app_assoc. cbn [app].
    rewrite (parse_members_step f acc k v); [| |reflexivity].
    + change (N.eqb 44 44) with true. cbv iota.
      rewrite IH; [reflexivity|done|done|simpl in *; lia].
    + apply Hv. simpl in Hf. lia.
Qed.

Lemma reads_object num b (props : list (jsstring * json)) :
  props ≠ [] →
  Forall (λ kv, reads b (JSON_stringify num kv.2) kv.2) props →
  reads (length props + b + 1) (JSON_stringify num (JObj props))
        (JObj (build_object props [])).
Proof.
  intros Hne Hall g tail Hg.
  destruct g as [|g]; [lia|].
  change (JSON_stringify num (JObj props))
    with (123%N :: join (lit ",") (List.map (member_text num) props) ++ [125%N]).
  cbn [app]. rewrite <- app_assoc. cbn [app].
  assert (Hhead : ∃ t, join (lit ",") (List.map (member_text num) props)
                       ++ 125%N :: tail = QUOTE :: t).
  { destruct props as [|[k v] [|kv' props']]; [done|..];
      cbn [List.map join]; unfold member_text at 1, QuoteJSONString;
      cbn [app]; eauto. }
  destruct Hhead as [t Ht].
  pose proof (parse_members_props num b props g [] tail Hne Hall
                ltac:(lia)) as Hp.
  rewrite Ht in *. exact Hp.
Qed.

Lemma length_join_at_least (sep : jsstring) (l : list jsstring) :
  Forall (λ x, 1 ≤ length x)%nat l → (length l ≤ length (join sep l))%nat.
Proof.
  induction 1 as [|x l Hx _ IH]; [done|].
  destruct l as [|y l']; [simpl; lia|].
  change (join sep (x :: y :: l')) with (x ++ sep ++ join sep (y :: l')).
  rewrite !length_app. simpl in *. lia.
Qed.

Lemma length_quoted_list (l : list jsstring) :
  (length l ≤ length (quoted_list l))%nat.
Proof.
  unfold quoted_list. etrans; [|apply length_join_at_least].
  - by rewrite length_map.
  - induction l as [|s l IH]; constructor; [|done].
    unfold QuoteJSONString. simpl. lia.
Qed.

(** [JSON.parse(JSON.stringify(recipe))] is the recipe. *)
Lemma parse_recipe_text (r : Recipe) :
  well_formed r →
  JSON_parse_model (recipe_text r) = Some (recipe_object r).
Proof.
  intros (Htv & Hing & Hins).
  unfold JSON_parse_model.
  set (b := (length (titleVariations r) + length (ingredients r)
             + length (instructions r) + 2)%nat).
  assert (Hreads : reads (7 + b + 1) (recipe_text r) (recipe_object r)).
  { apply (reads_object (λ _, []) b
             [(lit "name", JStr (name r));
              (lit "titleVariations", JArr (List.map JStr (titleVariations r)));
              (lit "servings", JStr (servings r));
              (lit "prepTime", JStr (prepTime r));
              (lit "cookTime", JStr (cookTime r));
              (lit "ingredients", JArr (List.map JStr (ingredients r)));
              (lit "instructions", JArr (List.map JStr (instructions r)))]);
      [done|].
    repeat apply List.Forall_cons; try apply List.Forall_nil; cbn [snd];
      intros g tail Hg;
      first [apply reads_string; lia
            |apply reads_strings; [done|unfold b in Hg; lia]]. }
  specialize (Hreads (2 * length (recipe_text r) + 2)%nat []).
  rewrite app_nil_r in Hreads. rewrite Hreads; [reflexivity|].
  unfold recipe_text, recipe_object.
  change (JSON_stringify ?n (JObj ?p))
    with (123%N :: join (lit ",") (List.map (member_text n) p) ++ [125%N]).
  cbn [List.map join]. unfold member_text. cbn [fst snd].
  rewrite !stringify_strings.
  pose proof (length_quoted_list (titleVariations r)).
  pose proof (length_quoted_list (ingredients r)).
  pose proof (length_quoted_list (instructions r)).
  cbn [length]. rewrite !length_app. cbn [length]. rewrite !length_app.
  unfold b. simpl. lia.
Qed.

End JsonRoundTrip.

(** ** Round trip of a recipe through the sanitizer and the checks *)

Section RecipeRoundTrip.

Implicit Types (s t text : jsstring) (r : Recipe).

Lemma starts_with_fence_before_newline s t :
  starts_with (lit "```") (s ++ NEWLINE :: t) = starts_with (lit "```") s.
Proof.
  change (lit "```") with [BACKTICK; BACKTICK; BACKTICK].
  destruct s as [|a [|b [|c s]]]; cbn [app starts_with];
    change (N.eqb BACKTICK NEWLINE) with false;
    rewrite ?andb_false_r; reflexivity.
Qed.

Lemma remove_closing_fence text :
  has_fence text = false →
  remove_fences O (text ++ NEWLINE :: lit "```") = text.
Proof.
  induction text as [|c t IH]; [reflexivity|].
  cbn [has_fence]. intros [H0 Ht]%orb_false_iff.
  cbn [app]. rewrite remove_fences_cons, fence_length_no_fence.
  - by rewrite IH.
  - change (c :: t ++ NEWLINE :: lit "```")
      with ((c :: t) ++ NEWLINE :: lit "```").
    by rewrite starts_with_fence_before_newline.
  - rewrite starts_with_fence_before_newline.
    destruct t as [|c' t']; [done|]. cbn [has_fence] in Ht.
    by apply orb_false_iff in Ht as [? _].
Qed.

Lemma trimEnd_snoc s c : is_space c = false → trimEnd (s ++ [c]) = s ++ [c].
Proof.
  intros Hc. induction s as [|a s IH]; simpl; [by rewrite Hc|].
  replace (forallb is_space (s ++ [c])) with false.
  - by rewrite andb_false_r, IH.
  - symmetry. rewrite forallb_app. simpl. by rewrite Hc, andb_false_r.
Qed.

(** A fenced text with no three backticks of its own, between braces, comes
    out of the sanitizer as it went in. *)
Lemma clean_fenced text :
  has_fence (LBRACE :: text ++ [RBRACE]) = false →
  clean (fenced (LBRACE :: text ++ [RBRACE])) = LBRACE :: text ++ [RBRACE].
Proof.
  intros Hf. rewrite clean_eq.
  change (remove_fences O (fenced ?x))
    with (remove_fences O (x ++ NEWLINE :: lit "```")).
  rewrite remove_closing_fence by done.
  unfold trim. cbn [trimStart]. change (is_space LBRACE) with false. cbv iota.
  change (LBRACE :: text ++ [RBRACE]) with ((LBRACE :: text) ++ [RBRACE]).
  by apply trimEnd_snoc.
Qed.

Lemma recipe_text_braces r : ∃ inner, recipe_text r = LBRACE :: inner ++ [RBRACE].
Proof. eexists. reflexivity. Qed.

Lemma checkRecipe_recipe_object E r :
  well_formed r →
  name r ≠ [] → servings r ≠ [] → prepTime r ≠ [] → cookTime r ≠ [] →
  checkRecipe E (recipe_object r) = inr (recipe_object r).
Proof.
  destruct r as [n tv sv pt ct ing ins]. unfold well_formed. simpl.
  intros (? & ? & ?) ? ? ? ?.
  destruct n, tv, sv, pt, ct, ing, ins; try done.
Qed.

(** *** Backticks in the JSON text come from the strings of the recipe *)

Lemma has_fence_other c t : c ≠ BACKTICK → has_fence (c :: t) = has_fence t.
Proof.
  intros Hc. cbn [has_fence].
  change (lit "```") with (BACKTICK :: lit "``").
  by rewrite starts_with_head.
Qed.

Lemma has_fence_short_run c t k :
  c ≠ BACKTICK → (k ≤ 2)%nat →
  has_fence (repeat BACKTICK k ++ c :: t) = has_fence t.
Proof.
  intros Hc Hk.
  assert (Hne : N.eqb BACKTICK c = false)
    by (by destruct (N.eqb_spec BACKTICK c); [subst|]).
  destruct k as [|[|[|k]]]; [..|lia]; cbn [repeat app].
  - by apply has_fence_other.
  - cbn [has_fence]. rewrite <- (has_fence_other c t Hc).
    change (lit "```") with [BACKTICK; BACKTICK; BACKTICK].
    cbn [starts_with]. rewrite Hne.
    by rewrite andb_false_r.
  - cbn [has_fence]. rewrite <- (has_fence_other c t Hc).
    change (lit "```") with [BACKTICK; BACKTICK; BACKTICK].
    cbn [starts_with]. rewrite Hne.
    by rewrite !andb_false_r.
Qed.

Lemma scan_fence s : ∀ k,
  (k ≤ 2)%nat →
  (scan k s = None ↔ has_fence (repeat BACKTICK k ++ s) = true).
Proof.
  induction s as [|c t IH]; intros k Hk.
  - rewrite app_nil_r.
    destruct k as [|[|[|k]]]; [..|lia]; by split.
  - cbn [scan]. destruct (N.eqb_spec c BACKTICK) as [->|Hc].
    + destruct k as [|[|[|k]]]; [..|lia]; cbn [Nat.leb].
      * apply (IH 1%nat). lia.
      * apply (IH 2%nat). lia.
      * by split.
    + rewrite (IH 0%nat) by lia. cbn [repeat app].
      by rewrite has_fence_short_run.
Qed.

Lemma has_fence_scan s : has_fence s = false ↔ scan O s ≠ None.
Proof.
  pose proof (scan_fence s O ltac:(lia)) as H. cbn [repeat app] in H.
  destruct (has_fence s), (scan O s); intuition congruence.
Qed.

Lemma scan_app s t : ∀ k, scan k (s ++ t) = scan k s ≫= λ k', scan k' t.
Proof.
  induction s as [|c s IH]; intros k; [done|]. cbn [app scan].
  destruct (N.eqb c BACKTICK); [destruct (Nat.leb 2 k)|]; auto.
Qed.

Lemma scan_other c t k : c ≠ BACKTICK → scan k (c :: t) = scan O t.
Proof. intros Hc. cbn [scan]. by destruct (N.eqb_spec c BACKTICK). Qed.

Lemma hex_digit_not_backtick n : hex_digit n ≠ BACKTICK.
Proof.
  unfold hex_digit, BACKTICK. destruct (N.ltb_spec n 10); lia.
Qed.

Lemma scan_quote_unit c t k :
  c ≠ BACKTICK → scan k (quote_unit c ++ t) = scan O t.
Proof.
  intros Hc. unfold quote_unit.
  repeat match goal with
         | |- context [if ?b then _ else _] => destruct b
         end;
    try (cbn [app]; rewrite !scan_other by (unfold BACKTICK, BACKSLASH; lia);
         reflexivity).
  - unfold unicode_escape. cbn [app].
    rewrite !scan_other;
      auto using hex_digit_not_backtick; unfold BACKTICK, BACKSLASH; lia.
  - cbn [app]. by rewrite scan_other.
Qed.

Lemma quote_unit_backtick : quote_unit BACKTICK = [BACKTICK].
Proof. reflexivity. Qed.

(** Quoting neither makes nor breaks a run of backticks. *)
Lemma scan_quote_chars s : ∀ k t,
  scan k (quote_chars s ++ t) = scan k (s ++ t).
Proof.
  remember (length s) as n eqn:Hn.
  revert s Hn. induction (lt_wf n) as [n _ IH]; intros s -> k t.
  destruct s as [|c s']; [done|].
  assert (Hunit : scan k ((quote_unit c ++ quote_chars s') ++ t)
                  = scan k ((c :: s') ++ t)).
  { rewrite <- app_assoc.
    destruct (N.eqb_spec c BACKTICK) as [->|Hc].
    - rewrite quote_unit_backtick. cbn [app scan].
      change (N.eqb BACKTICK BACKTICK) with true. cbv iota.
      destruct (Nat.leb 2 k); [done|].
      apply (IH (length s') ltac:(simpl; lia) s' eq_refl).
    - rewrite scan_quote_unit by done. cbn [app]. rewrite scan_other by done.
      apply (IH (length s') ltac:(simpl; lia) s' eq_refl). }
  cbn [quote_chars].
  destruct (is_high_surrogate c) eqn:Hhigh; [|done].
  destruct s' as [|d s''];
    [cbn [quote_chars] in Hunit; by rewrite app_nil_r in Hunit|].
  destruct (is_low_surrogate d) eqn:Hlow; [|done].
  assert (c ≠ BACKTICK ∧ d ≠ BACKTICK) as [Hc Hd].
  { unfold is_high_surrogate, is_low_surrogate, BACKTICK in *.
    apply andb_true_iff in Hhigh as [?%N.leb_le _].
    apply andb_true_iff in Hlow as [?%N.leb_le _]. lia. }
  cbn [app]. rewrite !(scan_other c), !(scan_other d) by done.
  apply (IH (length s'') ltac:(simpl; lia) s'' eq_refl).
Qed.

Lemma scan_quoted s t k :
  has_fence s = false → scan k (QuoteJSONString s ++ t) = scan O t.
Proof.
  intros Hs%has_fence_scan. unfold QuoteJSONString. cbn [app].
  rewrite scan_other by done.
  rewrite <- app_assoc, scan_quote_chars, scan_app.
  destruct (scan O s) as [k'|]; [|done]. cbn [mbind option_bind app].
  by rewrite scan_other.
Qed.

Lemma scan_quoted_list (l : list jsstring) c t :
  Forall (λ s, has_fence s = false) l → c ≠ BACKTICK →
  scan O (quoted_list l ++ c :: t) = scan O t.
Proof.
  intros Hl Hc. induction Hl as [|s l Hs Hl IH].
  - cbn [app]. unfold quoted_list. cbn [List.map join app].
    by rewrite scan_other.
  - unfold quoted_list in *. destruct l as [|s' l'].
    + cbn [List.map join]. rewrite scan_quoted by done. by rewrite scan_other.
    + change (join (lit ",") (List.map QuoteJSONString (s :: s' :: l')))
        with (QuoteJSONString s
              ++ 44%N :: join (lit ",") (List.map QuoteJSONString (s' :: l'))).
      rewrite <- app_assoc, scan_quoted by done. cbn [app].
      rewrite scan_other by done. apply IH.
Qed.

Lemma recipe_text_no_fence r :
  Forall (λ s, has_fence s = false) (strings_of r) →
  has_fence (recipe_text r) = false.
Proof.
  unfold strings_of. rewrite !Forall_app, !Forall_cons.
  intros ((Hn & Hs & Hp & Hc & _) & Htv & Hing & Hins).
  apply has_fence_scan.
  unfold recipe_text, recipe_object.
  change (JSON_stringify ?n (JObj ?p))
    with (123%N :: join (lit ",") (List.map (member_text n) p) ++ [125%N]).
  cbn [List.map join]. unfold member_text. cbn [fst snd].
  rewrite !stringify_strings. cbn [JSON_stringify].
  change (lit ":") with [58%N]. change (lit ",") with [44%N].
  rewrite <- !app_assoc. cbn [app]. rewrite <- !app_assoc. cbn [app].
  rewrite scan_other by done.
  repeat first
    [rewrite scan_quoted by done
    |rewrite scan_quoted_list by done
    |rewrite scan_other by done].
  done.
Qed.

(** C4, as the code has it.  For a recipe with all seven fields, the four
    strings non-empty, the three lists non-empty, and no three backticks in
    a row in any of its strings: its JSON text, put between a [```json]
    line and a closing fence line, is given back unchanged by the
    sanitizer, and parsing and checking it returns the recipe object
    itself.  Of the engine's [JSON.parse] the theorem asks one thing: that
    it reads the JSON text of this recipe as the grammar of JSON reads
    it. *)
Theorem recipe_round_trip (E : Env) r :
  (∀ v, JSON_parse_model (recipe_text r) = Some v →
        JSON_parse E (recipe_text r) = inr v) →
  well_formed r →
  name r ≠ [] → servings r ≠ [] → prepTime r ≠ [] → cookTime r ≠ [] →
  Forall (λ s, has_fence s = false) (strings_of r) →
  clean (fenced (recipe_text r)) = recipe_text r
  ∧ parseRecipe E (fenced (recipe_text r)) = inr (recipe_object r).
Proof.
  intros Hparse Hwf Hn Hs Hp Hc Hfence%recipe_text_no_fence.
  assert (Hclean : clean (fenced (recipe_text r)) = recipe_text r).
  { destruct (recipe_text_braces r) as [inner Hinner].
    rewrite Hinner in *. by apply clean_fenced. }
  split; [done|].
  unfold parseRecipe. rewrite Hclean.
  rewrite (Hparse _ (parse_recipe_text r Hwf)).
  by apply checkRecipe_recipe_object.
Qed.

Lemma recipe_round_trip_witness :
  parseRecipe (stub_engine []) (fenced (recipe_text pancakes))
  = inr (recipe_object pancakes).
Proof.
  apply (recipe_round_trip (stub_engine []) pancakes).
  - intros v Hv. cbn [JSON_parse stub_engine]. by rewrite Hv.
  - repeat split; discriminate.
  - discriminate.
  - discriminate.
  - discriminate.
  - discriminate.
  - repeat constructor.
Defined.

(** C4 as worded does not hold: a well-formed recipe whose name contains
    three backticks comes back with another name, the sanitizer having
    removed them from inside the string. *)
Lemma recipe_round_trip_counterexample :
  well_formed backtick_recipe
  ∧ parseRecipe (stub_engine []) (fenced (recipe_text backtick_recipe))
    = inr (recipe_object
             {| name := lit "ab";
                titleVariations := titleVariations backtick_recipe;
                servings := servings backtick_recipe;
                prepTime := prepTime backtick_recipe;
                cookTime := cookTime backtick_recipe;
                ingredients := ingredients backtick_recipe;
                instructions := instructions backtick_recipe |})
  ∧ parseRecipe (stub_engine []) (fenced (recipe_text backtick_recipe))
    ≠ inr (recipe_object backtick_recipe).
Proof.
  split; [repeat split; discriminate|].
  split; [vm_compute; reflexivity|vm_compute; discriminate].
Qed.

End RecipeRoundTrip.

(** ** The handler *)

Section Handler.

Variable E : Env.

Implicit Types (req : request) (m : ipStore) (now : Z) (b : json).

Lemma POST_limited now req m :
  (isRateLimited now (client_ip req) m).1 = true →
  POST E now req m
  = (error_response (lit "Rate limit exceeded. Please try again later.") 429,
     [], m).
Proof.
  unfold POST, isRateLimited.
  destruct (m !! client_ip req) as [d|]; [|done].
  destruct (_ <? _); [done|]. by destruct (_ <=? _).
Qed.

Lemma POST_allowed now req m :
  (isRateLimited now (client_ip req) m).1 = false →
  POST E now req m
  = (generate E req, (isRateLimited now (client_ip req) m).2).
Proof.
  unfold POST. by destruct (isRateLimited _ _ _) as [[] ?].
Qed.

(** Whatever the [try] body throws is an [Error] with a message. *)
Lemma parseRecipe_throws_Error text e :
  parseRecipe E text = inl e → ∃ diagnostic, e = Err diagnostic.
Proof.
  unfold parseRecipe, checkRecipe, TypeError.
  destruct (JSON_parse E (clean text)) as [msg|recipe]; [intros [= <-]; eauto|].
  destruct recipe;
    repeat match goal with
           | |- context [if ?c then _ else _] => destruct c
           end; intros [= <-]; eauto.
Qed.

Lemma generate_validation_error req b msg :
  body req = inr b →
  validateInput (get b (lit "ingredients")) (get b (lit "steps"))
  = inr (Some msg) →
  generate E req = (error_response msg 400, [ReadBody]).
Proof.
  unfold generate. intros -> Hv.
  destruct b; try (by rewrite Hv); done.
Qed.

Lemma generate_fault req b f :
  body req = inr b →
  validateInput (get b (lit "ingredients")) (get b (lit "steps")) = inl f →
  (generate E req).1 = error_response (fault_message E f) 500
  ∨ b = JNull ∧ (generate E req).1
                = error_response (fault_message E DestructureNull) 500.
Proof.
  unfold generate. intros -> Hv.
  destruct b; try (left; by rewrite Hv). by right.
Qed.

Lemma generate_no_prompt req b f :
  body req = inr b →
  validateInput (get b (lit "ingredients")) (get b (lit "steps")) = inr None →
  prompt E (get b (lit "ingredients")) (get b (lit "steps")) (get b (lit "tone"))
  = inl f →
  generate E req
  = (error_response (fault_message E f) 500,
     [ReadBody; ConsoleError (lit "Generation error:") (TypeError E f)]).
Proof.
  intros Hb Hv Hp. unfold generate. rewrite Hb.
  destruct b; try done; by rewrite Hv, Hp.
Qed.

Lemma generate_valid req b p :
  body req = inr b →
  validateInput (get b (lit "ingredients")) (get b (lit "steps")) = inr None →
  prompt E (get b (lit "ingredients")) (get b (lit "steps")) (get b (lit "tone"))
  = inr p →
  (generate E req).1
  = match generateContent E p with
    | inl e =>
        error_response (message_or (lit "Failed to generate recipe") e) 500
    | inr text =>
        match parseRecipe E text with
        | inl e =>
            error_response
              (lit "Invalid recipe format: " ++ message_or (lit "Unknown error") e)
              500
        | inr recipe => {| status := 200; payload := recipe |}
        end
    end.
Proof.
  intros Hb Hv Hp. unfold generate. rewrite Hb.
  destruct b; try done; rewrite Hv, Hp;
    destruct (generateContent E p) as [e|text]; try done;
    by destruct (parseRecipe E text).
Qed.

(** C7.  Each failure kind has its status.  A rate limiter denial answers
    429 with an error message, and neither reads the body nor calls the
    model; otherwise a validation error answers 400 with that message,
    again without calling the model.  Once the input is valid: a value for
    the tone that cannot be written into the prompt (ToString throws)
    answers 500 with the engine's message, the model not being called; a
    failure of the model answers 500 with its message; a reply that fails
    the format checks after generation answers 500 with the diagnostic
    after the words [Invalid recipe format: ]; and when every stage
    succeeds the answer is 200, the recipe being handed to
    [NextResponse.json], which sends its JSON text as the body. *)
Theorem status_of_each_outcome now req m :
  let limited := (isRateLimited now (client_ip req) m).1 in
  let response := (POST E now req m).1.1 in
  let effects := (POST E now req m).1.2 in
  (limited = true →
   response
   = error_response (lit "Rate limit exceeded. Please try again later.") 429
   ∧ effects = [])
  ∧ (limited = false →
     ∀ b,
       body req = inr b →
       let ingredients := get b (lit "ingredients") in
       let steps := get b (lit "steps") in
       (∀ msg,
          validateInput ingredients steps = inr (Some msg) →
          response = error_response msg 400 ∧ effects = [ReadBody])
       ∧ (validateInput ingredients steps = inr None →
          (∀ f,
             prompt E ingredients steps (get b (lit "tone")) = inl f →
             response = error_response (fault_message E f) 500
             ∧ model_calls effects = 0%nat)
          ∧ (∀ p,
               prompt E ingredients steps (get b (lit "tone")) = inr p →
               (∀ e,
                  generateContent E p = inl e →
                  response
                  = error_response
                      (message_or (lit "Failed to generate recipe") e) 500)
               ∧ (∀ text,
                    generateContent E p = inr text →
                    (∀ e,
                       parseRecipe E text = inl e →
                       ∃ diagnostic,
                         e = Err diagnostic
                         ∧ response
                           = error_response
                               (lit "Invalid recipe format: " ++ diagnostic) 500)
                    ∧ (∀ recipe,
                         parseRecipe E text = inr recipe →
                         response = {| status := 200; payload := recipe |}
                         ∧ body_text E response
                           = JSON_stringify (Number_toString (number_text E))
                                            recipe))))).
Proof.
  intros limited response effects. subst limited response effects. split.
  - intros Hl. by rewrite (POST_limited _ _ _ Hl).
  - intros Hl b Hb ingredients steps. rewrite (POST_allowed _ _ _ Hl).
    cbn [fst snd]. split.
    + intros msg Hv. by rewrite (generate_validation_error req b msg).
    + intros Hv. split.
      * intros f Hf. by rewrite (generate_no_prompt req b f Hb Hv Hf).
      * intros p Hp. rewrite (generate_valid req b p Hb Hv Hp). split.
        -- intros e He. by rewrite He.
        -- intros text Hgen. rewrite Hgen. split.
           ++ intros e He. destruct (parseRecipe_throws_Error _ _ He) as [d ->].
              exists d. by rewrite He.
           ++ intros recipe Hr. by rewrite Hr.
Qed.

(** C10, as the code has it.  For a request that passes the rate limiter
    and whose body was read: when [ingredients] is absent or not a string,
    or is a string that is non-empty once trimmed while [steps] is absent
    or not a string, the answer is 500 (the TypeError reaches the outer
    [catch]); when [ingredients] is a string that is empty once trimmed,
    the answer is the 400 of the validator whatever [steps] is. *)
Theorem status_of_ill_typed_body now req m b :
  (isRateLimited now (client_ip req) m).1 = false →
  body req = inr b →
  let ingredients := get b (lit "ingredients") in
  let steps := get b (lit "steps") in
  let response := (POST E now req m).1.1 in
  (¬ is_string ingredients → status response = 500)
  ∧ (∀ i, ingredients = Some (JStr i) → ¬ blank i → ¬ is_string steps →
          status response = 500)
  ∧ (∀ i, ingredients = Some (JStr i) → blank i →
          response = error_response EMPTY_INPUT 400).
Proof.
  intros Hl Hb ingredients steps response.
  subst response. rewrite (POST_allowed _ _ _ Hl). cbn [fst snd].
  assert (Hfault : ∀ f, validateInput ingredients steps = inl f →
                        status (generate E req).1 = 500).
  { intros f Hf. by destruct (generate_fault req b f Hb Hf) as [->|[_ ->]]. }
  split; [|split].
  - intros Hns. unfold validateInput, call_trim in Hfault.
    destruct ingredients as [[| | |i| |]|]; eauto.
    destruct Hns. by exists i.
  - intros i Hi Hnb Hns. unfold validateInput, call_trim in Hfault.
    rewrite Hi in Hfault. unfold blank in Hnb.
    destruct (trim i) eqn:Htrim; [done|]. simpl in Hfault.
    destruct steps as [[| | |s| |]|]; eauto.
    destruct Hns. by exists s.
  - intros i Hi Hblank.
    rewrite (generate_validation_error req b EMPTY_INPUT Hb); [done|].
    fold ingredients. rewrite Hi. unfold validateInput, call_trim.
    unfold blank in Hblank. by rewrite Hblank.
Qed.

End Handler.

(** The end-to-end scenario with a seven-field reply: 200 and the recipe.
    The same request with an object for the tone that has a [toString]
    property: 500, and the model is not called. *)
Lemma status_of_each_outcome_witness :
  (POST (stub_engine (fenced (recipe_text pancakes))) 0 pancake_request ∅).1.1
  = {| status := 200; payload := recipe_object pancakes |}
  ∧ (POST (stub_engine (fenced (recipe_text pancakes))) 0 odd_tone_request ∅).1.1
    = error_response (lit "Cannot convert object to primitive value") 500.
Proof.
  split.
  - pose proof (status_of_each_outcome
                  (stub_engine (fenced (recipe_text pancakes)))
                  0 pancake_request ∅) as [_ H].
    destruct (H eq_refl _ eq_refl) as [_ H1].
    destruct (H1 eq_refl) as [_ H2].
    destruct (H2 _ eq_refl) as [_ H3].
    destruct (H3 _ eq_refl) as [_ H4].
    apply H4. vm_compute. reflexivity.
  - pose proof (status_of_each_outcome
                  (stub_engine (fenced (recipe_text pancakes)))
                  0 odd_tone_request ∅) as [_ H].
    destruct (H eq_refl _ eq_refl) as [_ H1].
    destruct (H1 eq_refl) as [H2 _].
    apply (H2 (NoPrimitive (JObj [(lit "toString", JNum (S754_finite false 1 0))]))).
    reflexivity.
Defined.

(** A client that said nothing of its steps and sent a number for the
    ingredients gets 500. *)
Lemma status_of_ill_typed_body_witness :
  status (POST (stub_engine []) 0 number_request ∅).1.1 = 500.
Proof.
  refine (proj1 (status_of_ill_typed_body (stub_engine []) 0 number_request ∅
                   (JObj [(lit "ingredients", JNum (S754_finite false 1 0))])
                   eq_refl eq_refl) _).
  intros [s Hs]. discriminate Hs.
Defined.

(** C10 as worded does not hold: with an empty [ingredients] string and no
    [steps] at all the answer is 400. *)
Lemma status_of_ill_typed_body_counterexample :
  get (JObj [(lit "ingredients", JStr [])]) (lit "steps") = None
  ∧ body no_steps_request = inr (JObj [(lit "ingredients", JStr [])])
  ∧ (POST (stub_engine []) 0 no_steps_request ∅).1.1
    = error_response EMPTY_INPUT 400
  ∧ status (POST (stub_engine []) 0 no_steps_request ∅).1.1 ≠ 500.
Proof. repeat split. vm_compute. discriminate. Qed.

(* ================================================================== *)
(** * Further properties of the route *)

(** ** The store over time *)

Section StoreOverTime.

Implicit Types (m : ipStore) (ip : jsstring) (now : Z).

Lemma isRateLimited_same_entry now ip m1 m2 :
  m1 !! ip = m2 !! ip →
  (isRateLimited now ip m1).1 = (isRateLimited now ip m2).1
  ∧ (isRateLimited now ip m1).2 !! ip = (isRateLimited now ip m2).2 !! ip.
Proof.
  intros Heq. unfold isRateLimited. rewrite Heq.
  destruct (m2 !! ip) as [d|] eqn:Hd; simpl.
  - destruct (_ <? _); simpl; [by rewrite !lookup_insert_eq|].
    destruct (_ <=? _); simpl; [by rewrite Heq, Hd|].
    by rewrite !lookup_insert_eq.
  - by rewrite !lookup_insert_eq.
Qed.

Lemma sweep_lookup now ip m :
  sweep now m !! ip
  = match m !! ip with
    | Some d => if RATE_LIMIT_WINDOW <? now - timestamp d then None else Some d
    | None => None
    end.
Proof.
  unfold sweep. destruct (m !! ip) as [d|] eqn:Hd.
  - destruct (RATE_LIMIT_WINDOW <? now - timestamp d) eqn:Hold.
    + apply map_lookup_filter_None. right. intros d' Hd'. simplify_eq.
      simpl. by rewrite Hold.
    + apply map_lookup_filter_Some. split; [done|]. simpl. by rewrite Hold.
  - apply map_lookup_filter_None. by left.
Qed.

(** X1.  What a client is answered depends on its own requests and on the
    sweeps only: the requests of other keys can be left out without
    changing any of its answers. *)
Theorem answers_ignore_other_clients ip evs m :
  decisions ip evs m = decisions ip (List.filter (concerns ip) evs) m.
Proof.
  assert (H : ∀ evs m1 m2, m1 !! ip = m2 !! ip →
            decisions ip evs m1 = decisions ip (List.filter (concerns ip) evs) m2);
    [|by apply H].
  clear evs m. induction evs as [|[now ip'|now] evs IH]; intros m1 m2 Heq;
    [done| |].
  - cbn [List.filter concerns decisions].
    destruct (isRateLimited now ip' m1) as [l1 m1'] eqn:H1.
    destruct (decide (ip' = ip)) as [->|Hne].
    + rewrite bool_decide_eq_true_2 by done. cbn [decisions].
      destruct (isRateLimited now ip m2) as [l2 m2'] eqn:H2.
      rewrite decide_True by done.
      destruct (isRateLimited_same_entry now ip m1 m2 Heq) as [Hl Hm].
      rewrite H1, H2 in Hl, Hm. simpl in Hl, Hm. subst l2.
      f_equal. by apply IH.
    + rewrite bool_decide_eq_false_2 by done. apply IH.
      replace m1' with (isRateLimited now ip' m1).2 by (by rewrite H1).
      by rewrite isRateLimited_other.
  - cbn [List.filter concerns decisions]. apply IH.
    by rewrite !sweep_lookup, Heq.
Qed.

Lemma swept_later s t m1 m2 : s ≤ t → swept s m1 m2 → swept t m1 m2.
Proof.
  intros Hst H ip. destruct (H ip) as [?|(? & d & ? & ?)]; [by left|].
  right. split; [done|]. exists d. split; [done|lia].
Qed.

Lemma swept_sweep s m1 m2 : swept s m1 m2 → swept s (sweep s m1) m2.
Proof.
  intros H ip. rewrite sweep_lookup.
  destruct (H ip) as [Heq|(Hnone & d & Hd & Hold)].
  - rewrite Heq. destruct (m2 !! ip) as [d|] eqn:Hd; [|by left].
    destruct (Z.ltb_spec RATE_LIMIT_WINDOW (s - timestamp d)); [|by left].
    right. eauto.
  - rewrite Hnone. right. eauto.
Qed.

Lemma swept_request s ip' m1 m2 :
  swept s m1 m2 →
  (isRateLimited s ip' m1).1 = (isRateLimited s ip' m2).1
  ∧ swept s (isRateLimited s ip' m1).2 (isRateLimited s ip' m2).2.
Proof.
  intros H.
  assert (Hother : ∀ ip, ip' ≠ ip →
            (isRateLimited s ip' m1).2 !! ip = (isRateLimited s ip' m2).2 !! ip
            ∨ (isRateLimited s ip' m1).2 !! ip = None
              ∧ ∃ d, (isRateLimited s ip' m2).2 !! ip = Some d
                     ∧ RATE_LIMIT_WINDOW < s - timestamp d).
  { intros ip Hne. rewrite !isRateLimited_other by done. apply H. }
  destruct (H ip') as [Heq|(Hnone & d & Hd & Hold)].
  - destruct (isRateLimited_same_entry s ip' m1 m2 Heq) as [Hl Hm].
    split; [done|]. intros ip. destruct (decide (ip' = ip)) as [<-|Hne]; auto.
  - unfold isRateLimited in *. rewrite Hnone, Hd in *.
    apply Z.ltb_lt in Hold. rewrite Hold in *. simpl. split; [done|].
    intros ip. destruct (decide (ip' = ip)) as [<-|Hne]; [|auto].
    left. by rewrite !lookup_insert_eq.
Qed.

(** X2.  On a clock that does not go back, the hourly sweep is not
    observable: every client gets the answers it would get if the sweep
    never ran. *)
Theorem sweep_is_unobservable ip since evs m :
  nondecreasing since evs →
  decisions ip evs m = decisions ip (List.filter is_request evs) m.
Proof.
  assert (H : ∀ evs s m1 m2, swept s m1 m2 → nondecreasing s evs →
            decisions ip evs m1 = decisions ip (List.filter is_request evs) m2).
  { clear. induction evs as [|[now ip'|now] evs IH]; intros s m1 m2 Hs Hnd;
      [done| |]; destruct Hnd as [Hle Hnd]; simpl in Hle, Hnd;
      apply (swept_later _ _ _ _ Hle) in Hs.
    - cbn [List.filter is_request decisions].
      destruct (swept_request now ip' m1 m2 Hs) as [Hl Hm].
      destruct (isRateLimited now ip' m1) as [l1 m1'].
      destruct (isRateLimited now ip' m2) as [l2 m2'].
      simpl in Hl, Hm. subst l2.
      destruct (decide (ip' = ip)); [f_equal|]; by apply (IH now).
    - cbn [List.filter is_request decisions].
      apply (IH now); [by apply swept_sweep|done]. }
  intros Hnd. apply (H evs since m m); [|done]. intros ?. by left.
Qed.

Lemma sweep_is_unobservable_witness :
  decisions (lit "10.0.0.1")
    [Request 0 (lit "10.0.0.1"); Sweep 3600001; Request 3600001 (lit "10.0.0.1");
     Sweep 7300000; Request 7300000 (lit "10.0.0.1")] ∅
  = decisions (lit "10.0.0.1")
      [Request 0 (lit "10.0.0.1"); Request 3600001 (lit "10.0.0.1");
       Request 7300000 (lit "10.0.0.1")] ∅.
Proof.
  apply (sweep_is_unobservable (lit "10.0.0.1") 0). simpl. lia.
Defined.

Lemma bounded_counts_step m e : bounded_counts m → bounded_counts (step m e).
Proof.
  intros Hm ip d. destruct e as [now ip'|now]; simpl.
  - unfold isRateLimited.
    destruct (m !! ip') as [d'|] eqn:Hd'; simpl.
    + destruct (_ <? _); simpl.
      * intros [[_ <-]|[_ ?]]%lookup_insert_Some; [|by eapply Hm].
        unfold MAX_REQUESTS_PER_IP. simpl. lia.
      * destruct (Z.leb_spec MAX_REQUESTS_PER_IP (count d')); simpl;
          [by apply Hm|].
        intros [[_ <-]|[_ ?]]%lookup_insert_Some; [|by eapply Hm].
        simpl. pose proof (Hm _ _ Hd'). lia.
    + intros [[_ <-]|[_ ?]]%lookup_insert_Some; [|by eapply Hm].
      unfold MAX_REQUESTS_PER_IP. simpl. lia.
  - rewrite sweep_lookup. destruct (m !! ip) as [d'|] eqn:Hd'; [|done].
    destruct (_ <? _); [done|]. intros [= <-]. by eapply Hm.
Qed.

(** X3.  The counter never leaves the range from one to the maximum:
    whatever requests and sweeps come, in whatever order and at whatever
    times, every entry of the store counts between 1 and 20 requests. *)
Theorem counts_stay_bounded evs m :
  bounded_counts m → bounded_counts (run evs m).
Proof.
  unfold run. revert m. induction evs as [|e evs IH]; intros m Hm; [done|].
  simpl. by apply IH, bounded_counts_step.
Qed.

Lemma counts_stay_bounded_witness :
  bounded_counts (run (Request 0 (lit "10.0.0.1") :: busy_hour) ∅).
Proof.
  apply counts_stay_bounded. intros ip d Hd. by rewrite lookup_empty in Hd.
Defined.

End StoreOverTime.
(** ** The handler over time *)

Section HandlerOverTime.

Implicit Types (m : ipStore) (ip : jsstring) (now : Z) (req : request).

Lemma generate_status E req :
  status (generate E req).1 = 200
  ∨ status (generate E req).1 = 400
  ∨ status (generate E req).1 = 500.
Proof.
  unfold generate, after, generation_error, format_error.
  destruct (body req) as [e|b]; [auto|].
  destruct b; [auto|..];
    (destruct (validateInput _ _) as [f|[msg|]]; [auto|auto|];
     destruct (prompt _ _ _ _) as [f|p]; [auto|];
     destruct (generateContent _ _) as [e|text]; [auto|];
     destruct (parseRecipe _ _); auto).
Qed.

Lemma POST_store E now req m :
  (POST E now req m).2 = (isRateLimited now (client_ip req) m).2.
Proof.
  unfold POST. by destruct (isRateLimited _ _ _) as [[] ?].
Qed.

Lemma POST_429 E now req m :
  bool_decide (status (POST E now req m).1.1 = 429)
  = (isRateLimited now (client_ip req) m).1.
Proof.
  unfold POST. destruct (isRateLimited _ _ _) as [[] m']; simpl; [done|].
  apply bool_decide_eq_false_2.
  destruct (generate_status E req) as [->|[->| ->]]; done.
Qed.

Lemma answers_decisions ip hs : ∀ m,
  (λ r, bool_decide (status r = 429)) <$> answers ip hs m
  = decisions ip (as_event <$> hs) m.
Proof.
  induction hs as [|[E now req|now] hs IH]; intros m; [done| |].
  - cbn [answers fmap list_fmap as_event decisions].
    pose proof (POST_429 E now req m) as H429.
    pose proof (POST_store E now req m) as Hstore.
    destruct (POST E now req m) as [[resp effs] m'].
    destruct (isRateLimited now (client_ip req) m) as [l m''].
    simpl in H429, Hstore. subst l m''.
    destruct (decide (client_ip req = ip)); [|apply IH].
    cbn [fmap list_fmap]. f_equal. apply IH.
  - cbn [answers fmap list_fmap as_event decisions]. apply IH.
Qed.

(** X4.  End to end: from the request that opens a window for a client
    key, and while that key's later requests and the sweeps come within
    the hour, the k-th response to that key is a 429 exactly when k > 20,
    whatever the requests carry and whatever the model answers: requests
    answered 400 or 500 use up the quota like the others. *)
Theorem twenty_first_response_is_429 ip E1 t1 req1 hs m :
  client_ip req1 = ip →
  opens_window t1 ip m →
  Forall (in_window ip t1) (as_event <$> hs) →
  (λ r, bool_decide (status r = 429)) <$> answers ip (Arrival E1 t1 req1 :: hs) m
  = (λ k : nat, bool_decide (20 < S k)%nat)
      <$> seq 0 (S (requests_of ip (as_event <$> hs))).
Proof.
  intros Hip Hopen Hall. rewrite answers_decisions.
  cbn [fmap list_fmap as_event decisions]. rewrite Hip.
  rewrite (isRateLimited_opens _ _ _ Hopen), decide_True by done.
  cbn [seq fmap list_fmap]. f_equal.
  rewrite (decisions_in_window ip t1 _ _ 1);
    [|by rewrite lookup_insert_eq|done].
  rewrite <- (fmap_S_seq 0), <- list_fmap_compose.
  apply list_fmap_ext. intros _ k _. simpl.
  apply bool_decide_ext. unfold MAX_REQUESTS_PER_IP. lia.
Qed.

(** Twenty-one requests without forwarding header, none of them with
    ingredients: twenty answers that are not 429 (they are 500), then 429. *)
Lemma twenty_first_response_is_429_witness :
  (λ r, bool_decide (status r = 429))
    <$> answers (lit "unknown")
          (Arrival (stub_engine []) 0
             {| forwardedFor := None; body := inr (JObj []) |}
           :: anonymous_burst) ∅
  = repeat false 20 ++ [true].
Proof.
  pose proof (twenty_first_response_is_429 (lit "unknown") (stub_engine []) 0
                {| forwardedFor := None; body := inr (JObj []) |}
                anonymous_burst ∅ eq_refl (or_introl eq_refl)) as H.
  assert (Hall : Forall (in_window (lit "unknown") 0) (as_event <$> anonymous_burst)).
  { unfold anonymous_burst. simpl.
    repeat constructor; simpl; intros _; unfold RATE_LIMIT_WINDOW; lia. }
  rewrite (H Hall). reflexivity.
Defined.

End HandlerOverTime.
(** ** What one request can lead to *)

Section Outcomes.

Implicit Types (m : ipStore) (now : Z) (req : request) (E : Env).

Lemma generate_outcomes E req :
  (status (generate E req).1 = 400 ∧ (generate E req).2 = [ReadBody])
  ∨ (status (generate E req).1 = 500 ∧ (model_calls (generate E req).2 ≤ 1)%nat)
  ∨ (model_calls (generate E req).2 = 1%nat
     ∧ ∃ text recipe,
         parseRecipe E text = inr recipe
         ∧ (generate E req).1 = {| status := 200; payload := recipe |}).
Proof.
  unfold generate, after, generation_error, format_error.
  destruct (body req) as [e|b]; [right; left; simpl; auto|].
  destruct b; [right; left; simpl; auto|..];
    (destruct (validateInput _ _) as [f|[msg|]];
     [right; left; simpl; auto|left; simpl; auto|];
     destruct (prompt _ _ _ _) as [f|p];
     [right; left; simpl; unfold model_calls; simpl; auto|];
     destruct (generateContent _ _) as [e|text];
     [right; left; simpl; unfold model_calls; simpl; auto|];
     destruct (parseRecipe _ _) as [e|recipe] eqn:Hparse;
     [right; left; simpl; unfold model_calls; simpl; auto|];
     right; right; split; [reflexivity|eauto]).
Qed.

(** X5.  A request is answered in one of four ways, and the model is never
    called twice for it: 429 with nothing done; 400 with only the body
    read; 500 with at most one call of the model; 200 after exactly one
    call. *)
Theorem one_call_per_request E now req m :
  let response := (POST E now req m).1.1 in
  let effects := (POST E now req m).1.2 in
  (status response = 429 ∧ effects = [])
  ∨ (status response = 400 ∧ effects = [ReadBody])
  ∨ (status response = 500 ∧ (model_calls effects ≤ 1)%nat)
  ∨ (status response = 200 ∧ model_calls effects = 1%nat).
Proof.
  unfold POST. destruct (isRateLimited _ _ _) as [[] m']; cbn [fst snd];
    [by left|].
  destruct (generate_outcomes E req)
    as [?|[?|(? & text & recipe & _ & ->)]]; auto.
Qed.

Lemma checkRecipe_accepts E v v' :
  checkRecipe E v = inr v' →
  v' = v
  ∧ missingFields v = []
  ∧ non_empty_array v (lit "titleVariations") = true
  ∧ non_empty_array v (lit "ingredients") = true
  ∧ non_empty_array v (lit "instructions") = true.
Proof.
  unfold checkRecipe. destruct v; [done|..];
    (destruct (missingFields _) eqn:Hmiss; [|done];
     cbn [length Nat.eqb negb];
     destruct (non_empty_array _ (lit "titleVariations")); [|done];
     destruct (non_empty_array _ (lit "ingredients")); [|done];
     destruct (non_empty_array _ (lit "instructions")); [|done];
     by intros [= <-]).
Qed.

Lemma non_empty_array_get props field :
  non_empty_array (JObj props) field = true →
  ∃ x items, assoc field props = Some (JArr (x :: items)).
Proof.
  unfold non_empty_array. simpl.
  destruct (assoc field props) as [[| | | |[|x items]|]|]; try done. eauto.
Qed.

(** X6.  A 200 response is always made from a checked recipe: the value
    handed to [NextResponse.json] is an object in which each of the seven
    required fields is bound to a truthy value, and [titleVariations],
    [ingredients] and [instructions] are arrays with at least one element.
    The body sent is the JSON text of that object; a field that holds a
    number that is not finite is truthy in the object and [null] in the
    text. *)
Theorem ok_response_is_a_checked_recipe E now req m :
  status (POST E now req m).1.1 = 200 →
  ∃ props,
    payload (POST E now req m).1.1 = JObj props
    ∧ body_text E (POST E now req m).1.1
      = JSON_stringify (Number_toString (number_text E)) (JObj props)
    ∧ Forall (λ field, truthy (assoc field props) = true) requiredFields
    ∧ Forall (λ field, ∃ x items, assoc field props = Some (JArr (x :: items)))
             [lit "titleVariations"; lit "ingredients"; lit "instructions"].
Proof.
  unfold POST. destruct (isRateLimited _ _ _) as [[] m']; cbn [fst snd];
    [done|].
  destruct (generate_outcomes E req)
    as [[H _]|[[H _]|(_ & text & recipe & Hparse & ->)]];
    [rewrite H; done|rewrite H; done|]. intros _. unfold body_text.
  cbn [payload].
  unfold parseRecipe in Hparse.
  destruct (JSON_parse E (clean text)) as [?|v]; [done|].
  apply checkRecipe_accepts in Hparse as (-> & Hmiss & Htv & Hing & Hins).
  assert (Hall : Forall (λ field, truthy (get v field) = true) requiredFields).
  { apply Forall_forall. intros field Hin%list_elem_of_In.
    destruct (truthy (get v field)) eqn:Ht; [done|].
    assert (In field (missingFields v)) as Hm
      by (apply missingFields_In; done).
    rewrite Hmiss in Hm. destruct Hm. }
  destruct v as [| | | | |props];
    try (apply Forall_cons in Hall as [Hname _]; discriminate Hname).
  exists props. split; [done|]. split; [done|]. split; [done|].
  repeat constructor; by apply non_empty_array_get.
Qed.

Lemma ok_response_is_a_checked_recipe_witness :
  ∃ props,
    payload (POST (stub_engine (fenced (recipe_text pancakes))) 0
                  pancake_request ∅).1.1 = JObj props
    ∧ body_text (stub_engine (fenced (recipe_text pancakes)))
        (POST (stub_engine (fenced (recipe_text pancakes))) 0
              pancake_request ∅).1.1
      = JSON_stringify
          (Number_toString
             (number_text (stub_engine (fenced (recipe_text pancakes)))))
          (JObj props)
    ∧ Forall (λ field, truthy (assoc field props) = true) requiredFields
    ∧ Forall (λ field, ∃ x items, assoc field props = Some (JArr (x :: items)))
             [lit "titleVariations"; lit "ingredients"; lit "instructions"].
Proof.
  apply ok_response_is_a_checked_recipe. vm_compute. reflexivity.
Defined.

(** The value checked and the body sent can differ: a reply whose name is
    [1e400] passes the checks, [Infinity] being truthy, and is sent with
    [null] for the name. *)
Lemma huge_name_is_sent_as_null :
  status (POST (stub_engine huge_name_reply) 0 pancake_request ∅).1.1 = 200
  ∧ get (payload (POST (stub_engine huge_name_reply) 0 pancake_request ∅).1.1)
        (lit "name")
    = Some (JNum (S754_infinity false))
  ∧ starts_with (litq "{~name~:null,")
      (body_text (stub_engine huge_name_reply)
         (POST (stub_engine huge_name_reply) 0 pancake_request ∅).1.1)
    = true.
Proof. vm_compute. done. Qed.

(** X7.  The rate limiting key is the forwarding header up to its first
    comma, taken as it is (not trimmed): it holds no comma, the header is
    the key followed by nothing or by a comma and the rest; and every
    request without the header, or with an empty one, gets the one key
    [unknown]. *)
Theorem client_key_of_header req :
  (COMMA ∉ client_ip req)
  ∧ match forwardedFor req with
    | Some (c :: h) =>
        ∃ rest, c :: h = client_ip req ++ rest
                ∧ (rest = [] ∨ ∃ rest', rest = COMMA :: rest')
    | _ => client_ip req = lit "unknown"
    end.
Proof.
  assert (Hseg : ∀ h, (COMMA ∉ first_segment h)
                      ∧ ∃ rest, h = first_segment h ++ rest
                                ∧ (rest = [] ∨ ∃ rest', rest = COMMA :: rest')).
  { induction h as [|c h [IH1 (rest & IH2 & IH3)]]; simpl.
    - split; [apply not_elem_of_nil|]. exists []. auto.
    - destruct (N.eqb_spec c 44) as [->|Hc].
      + split; [apply not_elem_of_nil|]. exists (COMMA :: h). eauto.
      + split; [apply not_elem_of_cons; split; [by intros <-|done]|].
        exists rest. split; [|done]. simpl. by f_equal. }
  assert (Hunknown : COMMA ∉ lit "unknown").
  { intros H%list_elem_of_In. vm_compute in H.
    repeat (destruct H as [H|H]; [discriminate H|]). destruct H. }
  unfold client_ip. destruct (forwardedFor req) as [[|c h]|];
    cbn [nonempty]; [by split|apply Hseg|by split].
Qed.

End Outcomes.
(** ** More on the sanitizer *)

Section SanitizerMore.

Implicit Types (s t x text : jsstring).

Lemma remove_fences_sublist s : remove_fences O s `sublist_of` s.
Proof.
  remember (length s) as n eqn:Hn.
  revert s Hn. induction (lt_wf n) as [n _ IH]; intros s ->.
  destruct s as [|c t]; [done|].
  rewrite remove_fences_cons.
  destruct (fence_length (c :: t)) as [|k].
  - apply sublist_skip, (IH (length t)); [simpl; lia|done].
  - apply sublist_cons. etrans; [|apply (sublist_drop t k)].
    apply (IH (length (drop k t))); [rewrite length_drop; simpl; lia|done].
Qed.

Lemma trim_sublist s : trim s `sublist_of` s.
Proof.
  unfold trim.
  destruct (trimEnd_prefix (trimStart s)) as [w Hw].
  destruct (trimStart_suffix s) as [w' Hw'].
  rewrite Hw' at 2. apply sublist_inserts_l.
  rewrite Hw at 2. by apply sublist_inserts_r.
Qed.

(** X8.  The sanitizer only takes away: what it returns is the reply with
    some code units left out, in the same order, and it has no white space
    at either end (trimming it again changes nothing). *)
Theorem clean_only_removes x :
  clean x `sublist_of` x ∧ trim (clean x) = clean x.
Proof.
  rewrite clean_eq. split; [|apply trim_idem].
  etrans; [apply trim_sublist|apply remove_fences_sublist].
Qed.

(** X9.  A reply without three backticks in a row is only trimmed: the
    two anchored replacements add nothing to what [trim] does. *)
Theorem clean_without_fence x :
  has_fence x = false → clean x = trim x.
Proof.
  intros Hx. by rewrite clean_eq, remove_fences_no_fence.
Qed.

Lemma clean_without_fence_witness :
  clean (lit "  { }
 ") = lit "{ }".
Proof.
  rewrite clean_without_fence; reflexivity.
Defined.

(** X10.  Cleaning a second time changes nothing exactly when the first
    cleaning left no three backticks in a row. *)
Theorem cleaning_twice x :
  clean (clean x) = clean x ↔ has_fence (clean x) = false.
Proof. apply cleaning_twice_iff. Qed.

(** X11.  A fenced block, opened by a [```json] line or by a bare fence
    line and closed by a fence line, whose content has no three backticks
    in a row, is cleaned to its trimmed content. *)
Theorem clean_fenced_block text :
  has_fence text = false →
  clean (fenced text) = trim text
  ∧ clean (lit "```" ++ NEWLINE :: text ++ NEWLINE :: lit "```") = trim text.
Proof.
  intros Hf. rewrite !clean_eq. split.
  - change (remove_fences O (fenced text))
      with (remove_fences O (text ++ NEWLINE :: lit "```")).
    by rewrite remove_closing_fence.
  - change (remove_fences O (lit "```" ++ NEWLINE :: ?t))
      with (remove_fences O (NEWLINE :: t)).
    rewrite remove_fences_cons, fence_length_no_fence.
    + rewrite remove_closing_fence by done.
      unfold trim. cbn [trimStart]. change (is_space NEWLINE) with true.
      reflexivity.
    + reflexivity.
    + rewrite starts_with_fence_before_newline.
      destruct text as [|c t]; [done|]. cbn [has_fence] in Hf.
      by apply orb_false_iff in Hf as [? _].
Qed.

Lemma clean_fenced_block_witness :
  clean (fenced (lit " [1, 2] ")) = lit "[1, 2]".
Proof.
  rewrite (proj1 (clean_fenced_block (lit " [1, 2] ") eq_refl)). reflexivity.
Defined.

End SanitizerMore.

(** ** The earlier variants *)

Section Variants.

Implicit Types (s t text : jsstring) (req : request) (E : Env) (r : Recipe).

(** X12.  Rate limiting and input validation changed no answer of the
    first variant in the cases they let through: when the limiter allows
    the request and the validator accepts its fields, the rate-limited
    handler answers, logs and calls the model exactly as the first variant
    does. *)
Theorem same_answer_as_first_variant E now req m b :
  (isRateLimited now (client_ip req) m).1 = false →
  body req = inr b →
  validateInput (get b (lit "ingredients")) (get b (lit "steps")) = inr None →
  (POST E now req m).1 = POST_first E req.
Proof.
  intros Hl Hb Hv. rewrite (POST_allowed E _ _ _ Hl). cbn [fst].
  unfold generate, POST_first, generate_recipe, after. rewrite Hb.
  destruct b; try done; rewrite Hv;
    (destruct (prompt _ _ _ _) as [f|p]; [done|];
     destruct (generateContent _ _) as [e|text]; [done|];
     by destruct (parseRecipe _ _)).
Qed.

Lemma same_answer_as_first_variant_witness :
  (POST (stub_engine (fenced (recipe_text pancakes))) 0 pancake_request ∅).1
  = POST_first (stub_engine (fenced (recipe_text pancakes))) pancake_request.
Proof.
  by apply (same_answer_as_first_variant _ 0 pancake_request ∅
              (JObj [(lit "ingredients", JStr (lit "2 eggs, 1 cup flour"));
                     (lit "steps", JStr (lit "mix, bake"));
                     (lit "tone", JStr (lit "concise"))])).
Defined.

Lemma starts_with_self p t : starts_with p (p ++ t) = true.
Proof. induction p as [|a p IH]; [done|]. simpl. by rewrite N.eqb_refl. Qed.

Lemma strip_suffix_app s p : strip_suffix p (s ++ p) = s.
Proof.
  unfold strip_suffix, ends_with.
  rewrite rev_app_distr, starts_with_self, length_app.
  replace (length s + length p - length p)%nat with (length s) by lia.
  by rewrite take_app_length.
Qed.

Lemma trimEnd_snoc_space s c : is_space c = true → trimEnd (s ++ [c]) = trimEnd s.
Proof.
  intros Hc. induction s as [|a s IH]; simpl; [by rewrite Hc|].
  rewrite forallb_app. simpl. rewrite Hc, !andb_true_r.
  destruct (is_space a && forallb is_space s); [done|by rewrite IH].
Qed.

Lemma remove_outer_fence_fenced text :
  remove_outer_fence (fenced text) = text ++ [NEWLINE].
Proof.
  unfold remove_outer_fence.
  change (strip_prefix (lit "```json" ++ [NEWLINE]) (fenced text))
    with (text ++ NEWLINE :: lit "```").
  change (text ++ NEWLINE :: lit "```") with (text ++ [NEWLINE] ++ lit "```").
  by rewrite app_assoc, strip_suffix_app.
Qed.

Lemma clean_minimal_fenced text : clean_minimal (fenced text) = trim text.
Proof.
  unfold clean_minimal. rewrite remove_outer_fence_fenced.
  unfold trim. rewrite !trimEnd_trimStart.
  by rewrite trimEnd_snoc_space.
Qed.

(** X13.  The minimal variant's sanitizer turns a [```json] block into its
    trimmed content, whatever the content; the sanitizer of the later
    variants gives the same when the content has no three backticks in a
    row. *)
Theorem minimal_sanitizer_on_fenced_block text :
  clean_minimal (fenced text) = trim text
  ∧ (has_fence text = false → clean (fenced text) = clean_minimal (fenced text)).
Proof.
  split; [apply clean_minimal_fenced|].
  intros Hf. rewrite clean_minimal_fenced, clean_eq.
  change (remove_fences O (fenced text))
    with (remove_fences O (text ++ NEWLINE :: lit "```")).
  by rewrite remove_closing_fence.
Qed.

Lemma reads_any_strings num (l : list jsstring) :
  reads (length l + 2) (JSON_stringify num (JArr (List.map JStr l)))
        (JArr (List.map JStr l)).
Proof.
  destruct l as [|s l]; [|by apply reads_strings].
  intros [|g] tail Hg; [simpl in Hg; lia|]. reflexivity.
Qed.

Lemma parse_any_recipe_text r :
  JSON_parse_model (recipe_text r) = Some (recipe_object r).
Proof.
  unfold JSON_parse_model.
  set (b := (length (titleVariations r) + length (ingredients r)
             + length (instructions r) + 2)%nat).
  assert (Hreads : reads (7 + b + 1) (recipe_text r) (recipe_object r)).
  { apply (reads_object (λ _, []) b
             [(lit "name", JStr (name r));
              (lit "titleVariations", JArr (List.map JStr (titleVariations r)));
              (lit "servings", JStr (servings r));
              (lit "prepTime", JStr (prepTime r));
              (lit "cookTime", JStr (cookTime r));
              (lit "ingredients", JArr (List.map JStr (ingredients r)));
              (lit "instructions", JArr (List.map JStr (instructions r)))]);
      [done|].
    repeat apply List.Forall_cons; try apply List.Forall_nil; cbn [snd];
      intros g tail Hg;
      first [apply reads_string; lia
            |apply reads_any_strings; unfold b in Hg; lia]. }
  specialize (Hreads (2 * length (recipe_text r) + 2)%nat []).
  rewrite app_nil_r in Hreads. rewrite Hreads; [reflexivity|].
  unfold recipe_text, recipe_object.
  change (JSON_stringify ?n (JObj ?p))
    with (123%N :: join (lit ",") (List.map (member_text n) p) ++ [125%N]).
  cbn [List.map join]. unfold member_text. cbn [fst snd].
  rewrite !stringify_strings.
  pose proof (length_quoted_list (titleVariations r)).
  pose proof (length_quoted_list (ingredients r)).
  pose proof (length_quoted_list (instructions r)).
  cbn [length]. rewrite !length_app. cbn [length]. rewrite !length_app.
  unfold b. simpl. lia.
Qed.

(** X14.  In the minimal variant the round trip holds for every recipe:
    the JSON text of any recipe, empty fields and backticks included, put
    in a [```json] block, comes out of the sanitizer as it went in and is
    parsed back to the same recipe, by any engine whose [JSON.parse] reads
    the JSON text of this recipe as the grammar of JSON reads it.  (The
    later variants give up part of this, see C4.) *)
Theorem minimal_round_trip E r :
  (∀ v, JSON_parse_model (recipe_text r) = Some v →
        JSON_parse E (recipe_text r) = inr v) →
  clean_minimal (fenced (recipe_text r)) = recipe_text r
  ∧ JSON_parse E (clean_minimal (fenced (recipe_text r))) = inr (recipe_object r).
Proof.
  intros Hparse.
  assert (Hclean : clean_minimal (fenced (recipe_text r)) = recipe_text r).
  { rewrite clean_minimal_fenced.
    destruct (recipe_text_braces r) as [inner ->].
    unfold trim. cbn [trimStart]. change (is_space LBRACE) with false. cbv iota.
    change (LBRACE :: inner ++ [RBRACE]) with ((LBRACE :: inner) ++ [RBRACE]).
    by apply trimEnd_snoc. }
  split; [done|]. rewrite Hclean.
  apply Hparse, parse_any_recipe_text.
Qed.

Lemma minimal_round_trip_witness :
  JSON_parse (stub_engine [])
    (clean_minimal (fenced (recipe_text backtick_recipe)))
  = inr (recipe_object backtick_recipe).
Proof.
  apply (minimal_round_trip (stub_engine []) backtick_recipe).
  intros v Hv. cbn [JSON_parse stub_engine]. by rewrite Hv.
Defined.

(** X15.  The minimal variant checks nothing and has one answer for every
    failure.  When the body is read and is not [null], its three fields can
    be written into the prompt, the model replies and [JSON.parse] accepts
    the cleaned reply, the answer is 200 and the value parsed from that
    reply, whatever it is, is handed to [NextResponse.json], which sends
    its JSON text.  In every other case the answer is 500 with the one
    fixed message, which tells nothing of what went wrong.  The model is
    called at most once. *)
Theorem minimal_variant_outcomes E req :
  let response := (POST_minimal E req).1 in
  let accepted b p text v :=
    body req = inr b ∧ b ≠ JNull
    ∧ prompt_minimal E (get b (lit "ingredients")) (get b (lit "steps"))
                     (get b (lit "tone")) = inr p
    ∧ generateContent E p = inr text
    ∧ JSON_parse E (clean_minimal text) = inr v in
  (∀ b p text v,
     accepted b p text v →
     response = {| status := 200; payload := v |}
     ∧ body_text E response
       = JSON_stringify (Number_toString (number_text E)) v)
  ∧ ((∃ b p text v, accepted b p text v)
     ∨ response
       = error_response (lit "Failed to generate recipe. Please try again.") 500)
  ∧ (model_calls (POST_minimal E req).2 ≤ 1)%nat.
Proof.
  intros response accepted. subst response accepted.
  unfold POST_minimal, minimal_failure. cbv beta.
  destruct (body req) as [e|b] eqn:Hb.
  { split; [by intros ???? (? & _)|].
    split; [by right|unfold model_calls; simpl; lia]. }
  destruct (prompt_minimal E _ _ _) as [f|p] eqn:Hp.
  { split.
    - intros b' p' text v ([= <-] & Hnull & Hp' & _). rewrite Hp in Hp'. done.
    - destruct b; (split; [by right|unfold model_calls; simpl; lia]). }
  destruct (generateContent E p) as [e|text] eqn:Hgen.
  { split.
    - intros b' p' text v ([= <-] & Hnull & Hp' & Hgen' & _).
      rewrite Hp in Hp'. injection Hp' as <-. rewrite Hgen in Hgen'. done.
    - destruct b; (split; [by right|unfold model_calls; simpl; lia]). }
  destruct (JSON_parse E (clean_minimal text)) as [msg|v] eqn:Hv.
  { split.
    - intros b' p' text' v ([= <-] & Hnull & Hp' & Hgen' & Hv').
      rewrite Hp in Hp'. injection Hp' as <-.
      rewrite Hgen in Hgen'. injection Hgen' as <-. rewrite Hv in Hv'. done.
    - destruct b; (split; [by right|unfold model_calls; simpl; lia]). }
  split.
  - intros b' p' text' v' ([= <-] & Hnull & Hp' & Hgen' & Hv').
    rewrite Hp in Hp'. injection Hp' as <-.
    rewrite Hgen in Hgen'. injection Hgen' as <-.
    rewrite Hv in Hv'. injection Hv' as <-.
    by destruct b.
  - destruct b;
      (split; [|unfold model_calls; simpl; lia]);
      first [by right|left; eexists _, p, text, v; by repeat split].
Qed.

End Variants.

(** ** The export to WP Recipe Maker *)

Section WprmExport.

Implicit Types (s rest : jsstring) (n : N) (r : Recipe)
  (other : spec_float → jsstring).

Lemma digit_value_decimal c :
  is_digit c = true → digit_value 10 c = Some (c - 48)%N.
Proof.
  unfold is_digit, digit_value. intros H. rewrite H.
  apply andb_true_iff in H as [?%N.leb_le ?%N.leb_le].
  destruct (N.ltb_spec (c - 48) 10); [done|lia].
Qed.

Lemma digit_value_other c : is_digit c = false → digit_value 10 c = None.
Proof.
  unfold is_digit, digit_value. intros ->.
  destruct ((97 <=? c) && (c <=? 122))%N eqn:Hlow.
  - apply andb_true_iff in Hlow as [?%N.leb_le ?%N.leb_le].
    destruct (N.ltb_spec (c - 87) 10); [lia|done].
  - destruct ((65 <=? c) && (c <=? 90))%N eqn:Hup; [|done].
    apply andb_true_iff in Hup as [?%N.leb_le ?%N.leb_le].
    destruct (N.ltb_spec (c - 55) 10); [lia|done].
Qed.

(** What [write_digits] puts in front of [acc]: digits, at least one, that
    read back as [n]. *)
Lemma write_digits_spec fuel : ∀ n acc,
  (n < 2 ^ N.of_nat (S fuel))%N →
  ∃ ds, write_digits (S fuel) n acc = ds ++ acc
        ∧ ds ≠ []
        ∧ Forall (λ c, is_digit c = true) ds
        ∧ digits_value 10 ((λ c, c - 48)%N <$> ds) = n.
Proof.
  assert (Hdigit : ∀ n, is_digit (48 + n mod 10) = true).
  { intros n. unfold is_digit. pose proof (N.mod_lt n 10 ltac:(done)) as H.
    revert H. generalize (n mod 10)%N. intros x Hx.
    apply andb_true_iff. split; apply N.leb_le; lia. }
  assert (Hsmall : ∀ f n acc, (n < 10)%N →
            ∃ ds, write_digits (S f) n acc = ds ++ acc ∧ ds ≠ []
                  ∧ Forall (λ c, is_digit c = true) ds
                  ∧ digits_value 10 ((λ c, c - 48)%N <$> ds) = n).
  { intros f n acc Hn. exists [(48 + n mod 10)%N]. cbn [write_digits].
    destruct (N.ltb_spec n 10); [|lia].
    split; [done|]. split; [done|]. split; [by constructor|].
    unfold digits_value. simpl. rewrite N.mod_small by done. lia. }
  induction fuel as [|fuel IH]; intros n acc Hn.
  - apply Hsmall. simpl in Hn. lia.
  - destruct (N.ltb_spec n 10) as [Hlt|Hbig]; [by apply Hsmall|].
    destruct (IH (n / 10)%N ((48 + n mod 10)%N :: acc))
      as (ds & Hds & _ & Hdig & Hval).
    { rewrite (Nat2N.inj_succ (S fuel)), N.pow_succ_r' in Hn.
      apply N.Div0.div_lt_upper_bound. lia. }
    exists (ds ++ [(48 + n mod 10)%N]).
    split.
    { change (write_digits (S (S fuel)) n acc)
        with (let acc' := (48 + n mod 10)%N :: acc in
              if (n <? 10)%N then acc'
              else write_digits (S fuel) (n / 10)%N acc').
      cbv zeta. destruct (N.ltb_spec n 10); [lia|].
      by rewrite Hds, <- app_assoc. }
    split; [by destruct ds|]. split.
    + apply Forall_app. split; [done|]. by constructor.
    + rewrite fmap_app. unfold digits_value in *.
      rewrite fold_left_app, Hval. simpl.
      pose proof (N.div_mod n 10 ltac:(done)) as Hdm.
      revert Hdm. generalize (n mod 10)%N (n / 10)%N. intros; lia.
Qed.

Lemma to_decimal_spec n :
  ∃ ds, to_decimal n = ds
        ∧ ds ≠ []
        ∧ Forall (λ c, is_digit c = true) ds
        ∧ digits_value 10 ((λ c, c - 48)%N <$> ds) = n.
Proof.
  destruct (write_digits_spec (N.to_nat (N.log2 n)) n [])
    as (ds & Hds & ? & ? & ?).
  - rewrite Nat2N.inj_succ, N2Nat.id.
    destruct n as [|p]; [done|]. apply N.log2_spec. lia.
  - exists ds. rewrite app_nil_r in Hds. done.
Qed.

Lemma leading_digits_app ds n rest :
  Forall (λ c, is_digit c = true) ds →
  ends_number n rest →
  leading_digits 10 (ds ++ rest) = (λ c, c - 48)%N <$> ds.
Proof.
  intros Hds Hrest. induction Hds as [|c ds Hc _ IH]; simpl.
  - destruct rest as [|c rest]; [done|]. simpl.
    destruct Hrest as (Hc & _). by rewrite digit_value_other.
  - by rewrite digit_value_decimal, IH.
Qed.

(** [parseInt] reads a decimal number back, whatever follows it. *)
Lemma parseInt_decimal n rest :
  ends_number n rest →
  parseInt (to_decimal n ++ rest) = to_double false (Z.of_N n) 0.
Proof.
  intros Hrest.
  destruct (to_decimal_spec n) as (ds & -> & Hne & Hds & Hval).
  pose proof (leading_digits_app ds n rest Hds Hrest) as Hlead.
  destruct ds as [|c ds]; [done|].
  apply Forall_cons in Hds as [Hc Hds].
  assert (Hrange : (48 ≤ c ≤ 57)%N).
  { unfold is_digit in Hc. apply andb_true_iff in Hc as [?%N.leb_le ?%N.leb_le].
    done. }
  unfold parseInt. cbn [app trimStart].
  replace (is_space c) with false; cycle 1.
  { unfold is_space.
    repeat match goal with
           | |- context [(?a <=? ?b)%N] => destruct (N.leb_spec a b); try lia
           | |- context [(?a =? ?b)%N] => destruct (N.eqb_spec a b); try lia
           end; done. }
  destruct (N.eqb_spec c 45); [lia|]. destruct (N.eqb_spec c 43); [lia|].
  cbn [app] in Hlead |- *.
  assert (Hnox : ∀ b t, ds ++ rest = b :: t →
                        N.eqb c 48 && (N.eqb b 120 || N.eqb b 88) = false).
  { intros b t Hnext. destruct ds as [|d ds].
    - simpl in Hnext. subst rest. destruct Hrest as (_ & Hx).
      destruct (N.eqb_spec c 48) as [->|]; [|done].
      destruct Hx as [? ?]; [by rewrite <- Hval|].
      destruct (N.eqb_spec b 120); [done|]. by destruct (N.eqb_spec b 88).
    - simpl in Hnext. injection Hnext as -> _.
      apply Forall_cons in Hds as [Hd _]. unfold is_digit in Hd.
      apply andb_true_iff in Hd as [?%N.leb_le ?%N.leb_le].
      destruct (N.eqb_spec b 120); [lia|]. destruct (N.eqb_spec b 88); [lia|].
      by rewrite andb_false_r. }
  destruct (ds ++ rest) as [|b t] eqn:Hnext.
  - rewrite Hlead. cbn [fmap list_fmap] in Hval |- *. by rewrite Hval.
  - rewrite (Hnox b t eq_refl), Hlead.
    cbn [fmap list_fmap] in Hval |- *. by rewrite Hval.
Qed.

Lemma parseInt_without_number s : starts_without_number s → parseInt s = S754_nan.
Proof.
  unfold starts_without_number, parseInt.
  destruct (trimStart s) as [|c t]; [done|]. intros (Hc & H45 & H43).
  destruct (N.eqb_spec c 45); [done|]. destruct (N.eqb_spec c 43); [done|].
  assert (Hnot0 : N.eqb c 48 = false).
  { unfold is_digit in Hc. destruct (N.eqb_spec c 48) as [->|]; done. }
  destruct t as [|b t]; cbn [leading_digits]; rewrite ?Hnot0; cbn [andb];
    cbn [leading_digits]; by rewrite digit_value_other.
Qed.

(** X16.  When the prep time or the cook time does not start with a number
    (it is empty, or starts with a word), the exported total time is the
    text [NaN], whatever the other time is. *)
Theorem total_time_without_number other r :
  starts_without_number (prepTime r) ∨ starts_without_number (cookTime r) →
  get (formatRecipeForWPRM other r) (lit "total_time") = Some (JStr (lit "NaN")).
Proof.
  intros H.
  change (get (formatRecipeForWPRM other r) (lit "total_time"))
    with (Some (JStr (total_time other r))).
  do 2 f_equal. unfold total_time, number_add.
  destruct H as [H|H]; rewrite (parseInt_without_number _ H); [done|].
  by destruct (parseInt (prepTime r)).
Qed.

Lemma total_time_without_number_witness :
  get (formatRecipeForWPRM (λ _, [])
         {| name := lit "Soup"; titleVariations := []; servings := lit "2";
            prepTime := lit "about 5"; cookTime := lit "15";
            ingredients := []; instructions := [] |})
      (lit "total_time")
  = Some (JStr (lit "NaN")).
Proof.
  apply total_time_without_number. left. repeat split; discriminate.
Defined.

Lemma sums_below_181 : sums_below 181 = true.
Proof. vm_compute. reflexivity. Qed.

(** X17.  For prep and cook times of up to 180 minutes each, written as
    decimal numbers and followed by nothing or by text that starts with
    something other than a digit (and, after a lone [0], other than [x] or
    [X], which would make the time a hexadecimal number), the exported
    total time is the decimal writing of their sum. *)
Theorem total_time_of_minutes other r (a b : nat) rest_a rest_b :
  (a ≤ 180)%nat → (b ≤ 180)%nat →
  prepTime r = to_decimal (N.of_nat a) ++ rest_a →
  cookTime r = to_decimal (N.of_nat b) ++ rest_b →
  ends_number (N.of_nat a) rest_a → ends_number (N.of_nat b) rest_b →
  get (formatRecipeForWPRM other r) (lit "total_time")
  = Some (JStr (to_decimal (N.of_nat (a + b)))).
Proof.
  intros Ha Hb Hprep Hcook Hra Hrb.
  change (get (formatRecipeForWPRM other r) (lit "total_time"))
    with (Some (JStr (total_time other r))).
  do 2 f_equal. unfold total_time.
  rewrite Hprep, Hcook, !parseInt_decimal by done.
  rewrite !nat_N_Z.
  pose proof sums_below_181 as Htable. unfold sums_below in Htable.
  rewrite forallb_forall in Htable.
  specialize (Htable a ltac:(apply in_seq; lia)).
  rewrite forallb_forall in Htable.
  specialize (Htable b ltac:(apply in_seq; lia)).
  apply bool_decide_eq_true in Htable.
  revert Htable. generalize (number_add (to_double false (Z.of_nat a) 0)
                                        (to_double false (Z.of_nat b) 0)).
  intros x Hx.
  destruct (to_decimal_spec (N.of_nat (a + b))) as (ds & Hds & Hne & _).
  rewrite Hds in *. unfold Number_toString in *.
  destruct x as [| | |neg m e]; try done.
  destruct (integer_value m e) as [n|];
    [destruct (n <=? 2 ^ 53)%N; [done|]|]; by subst ds.
Qed.

Lemma total_time_of_minutes_witness :
  get (formatRecipeForWPRM (λ _, [])
         {| name := lit "Salad"; titleVariations := []; servings := lit "2";
            prepTime := lit "15 min"; cookTime := lit "0 min";
            ingredients := []; instructions := [] |})
      (lit "total_time")
  = Some (JStr (lit "15")).
Proof.
  apply (total_time_of_minutes (λ _, []) _ 15 0 (lit " min") (lit " min"));
    [lia|lia|reflexivity|reflexivity| |].
  - split; [reflexivity|]. intros H. discriminate H.
  - split; [reflexivity|]. intros _. split; discriminate.
Defined.

Lemma map_inj_list {A B} (f : A → B) (l1 l2 : list A) :
  (∀ x y, f x = f y → x = y) → List.map f l1 = List.map f l2 → l1 = l2.
Proof.
  intros Hf. revert l2. induction l1 as [|x l1 IH]; intros [|y l2]; try done.
  simpl. intros [= Hxy Hl]. f_equal; auto.
Qed.

(** X18.  The export keeps everything of a recipe but its title
    variations: two recipes have the same export exactly when they have the
    same name, servings, times, ingredients and instructions. *)
Theorem export_keeps_all_but_titles other r1 r2 :
  formatRecipeForWPRM other r1 = formatRecipeForWPRM other r2
  ↔ same_but_titles r1 r2.
Proof.
  unfold same_but_titles. split.
  - unfold formatRecipeForWPRM. intros [= Hn Hs Hp Hc _ Hing Hins].
    apply map_inj_list in Hing; [|by intros x y [= ->]].
    apply map_inj_list in Hins; [|by intros x y [= ->]].
    done.
  - intros (Hn & Hs & Hp & Hc & Hing & Hins).
    unfold formatRecipeForWPRM, total_time.
    by rewrite Hn, Hs, Hp, Hc, Hing, Hins.
Qed.

End WprmExport.

(** ** The recipe history of the page *)

Section HistoryFacts.

Implicit Types (h : list History.SavedRecipe) (r : History.SavedRecipe)
  (data : Recipe) (now : N) (iso value : jsstring).

Lemma to_decimal_inj (a b : N) : to_decimal a = to_decimal b → a = b.
Proof.
  destruct (to_decimal_spec a) as (da & -> & _ & _ & <-).
  destruct (to_decimal_spec b) as (db & -> & _ & _ & <-).
  by intros ->.
Qed.

Lemma deleteRecipe_absent id0 h :
  Forall (λ r, History.id r ≠ id0) h → History.deleteRecipe id0 h = h.
Proof.
  induction 1 as [|r h Hr _ IH]; [done|].
  unfold History.deleteRecipe in *. simpl.
  by rewrite bool_decide_eq_false_2, IH.
Qed.

(** X19.  Deleting the recipe just saved undoes the saving: when no older
    recipe has the id of the new one, the history is the one before the
    save and the current recipe is cleared. *)
Theorem delete_undoes_save data now iso h :
  Forall (λ r, History.id r ≠ to_decimal now) h →
  History.deleteRecipe (to_decimal now) (History.updatedHistory data now iso h) = h
  ∧ History.recipe_after_delete (to_decimal now)
      (Some (History.newSavedRecipe data now iso)) = None.
Proof.
  intros Hfresh. split.
  - unfold History.updatedHistory, History.deleteRecipe. simpl.
    rewrite bool_decide_eq_true_2 by done. simpl.
    by apply deleteRecipe_absent.
  - unfold History.recipe_after_delete. simpl.
    by rewrite bool_decide_eq_true_2.
Qed.

Lemma delete_undoes_save_witness :
  History.deleteRecipe (to_decimal 1700000000000)
    (History.updatedHistory pancakes 1700000000000 (lit "2023-11-14T22:13:20.000Z")
       [History.newSavedRecipe backtick_recipe 1600000000000
          (lit "2020-09-13T12:26:40.000Z")])
  = [History.newSavedRecipe backtick_recipe 1600000000000
       (lit "2020-09-13T12:26:40.000Z")].
Proof.
  apply delete_undoes_save. repeat constructor. vm_compute. discriminate.
Defined.

(** X20.  Ids are as distinct as the clock: recipes saved at different
    milliseconds have different ids, so deleting the later one leaves the
    earlier one where it was; saved at the same millisecond they share the
    id and are deleted together. *)
Theorem deleting_the_later_recipe data1 data2 now1 now2 iso1 iso2 h :
  let later := History.newSavedRecipe data2 now2 iso2 in
  let earlier := History.newSavedRecipe data1 now1 iso1 in
  History.deleteRecipe (History.id later)
    (History.updatedHistory data2 now2 iso2
       (History.updatedHistory data1 now1 iso1 h))
  = if decide (now1 = now2)
    then History.deleteRecipe (History.id later) h
    else earlier :: History.deleteRecipe (History.id later) h.
Proof.
  intros later earlier.
  unfold History.updatedHistory, History.deleteRecipe. simpl.
  rewrite bool_decide_eq_true_2 by done. simpl.
  destruct (decide (now1 = now2)) as [->|Hne].
  - by rewrite bool_decide_eq_true_2.
  - rewrite bool_decide_eq_false_2; [done|].
    intros Heq%to_decimal_inj. done.
Qed.

(** X21.  Choosing another title changes names only: the history keeps
    its length, its ids and dates in their order; the entries whose id is
    not the current recipe's are untouched; and it makes no difference
    whether a recipe is deleted before or after the renaming. *)
Theorem rename_changes_names_only value r h id0 :
  History.id <$> History.rename value r h = History.id <$> h
  ∧ History.createdAt <$> History.rename value r h = History.createdAt <$> h
  ∧ Forall2 (λ r' r0, History.id r0 ≠ History.id r → r' = r0)
            (History.rename value r h) h
  ∧ History.deleteRecipe id0 (History.rename value r h)
    = History.rename value r (History.deleteRecipe id0 h).
Proof.
  unfold History.rename, History.deleteRecipe.
  induction h as [|r0 h (IH1 & IH2 & IH3 & IH4)]; [by repeat split|].
  cbn [List.map List.filter fmap list_fmap] in *.
  assert (Hid : History.id (if bool_decide (History.id r0 = History.id r)
                            then History.with_name value r0 else r0)
                = History.id r0) by (by destruct (bool_decide _)).
  assert (Hat : History.createdAt
                  (if bool_decide (History.id r0 = History.id r)
                   then History.with_name value r0 else r0)
                = History.createdAt r0) by (by destruct (bool_decide _)).
  split; [by rewrite Hid, <- IH1|]. split; [by rewrite Hat, <- IH2|].
  split.
  - constructor; [|done]. intros Hne. by rewrite bool_decide_eq_false_2.
  - rewrite Hid. destruct (bool_decide (History.id r0 = id0)); simpl; [done|].
    by rewrite IH4.
Qed.

(** X22.  The title select offers the current name once, then the other
    variations.  After a variation has been chosen, the name given up can
    be chosen back exactly when it is itself one of the title variations. *)
Theorem choosing_a_title_back r title :
  title ∈ History.title_choices r → title ≠ name (History.saved r) →
  (title ∈ titleVariations (History.saved r))
  ∧ (name (History.saved r) ∈ History.title_choices (History.with_name title r)
     ↔ name (History.saved r) ∈ titleVariations (History.saved r)).
Proof.
  unfold History.title_choices. cbn [History.with_name History.saved name
                                    titleVariations].
  intros Hin Hne.
  apply elem_of_cons in Hin as [?|Hin]; [done|].
  apply list_elem_of_In, filter_In in Hin as [Hin%list_elem_of_In _].
  split; [done|]. split.
  - intros [?|H]%elem_of_cons; [by subst|].
    by apply list_elem_of_In, filter_In in H as [H%list_elem_of_In _].
  - intros H. apply elem_of_cons. right.
    apply list_elem_of_In, filter_In. split; [by apply list_elem_of_In|].
    apply negb_true_iff, bool_decide_eq_false_2. by intros Heq.
Qed.

Lemma choosing_a_title_back_witness :
  name pancakes
    ∈ History.title_choices
        (History.with_name (lit "How to make pancakes")
           (History.newSavedRecipe pancakes 1700000000000 [])).
Proof.
  apply (choosing_a_title_back
           (History.newSavedRecipe pancakes 1700000000000 [])
           (lit "How to make pancakes")).
  - apply elem_of_cons. right. apply elem_of_cons. by left.
  - discriminate.
  - apply elem_of_cons. by left.
Defined.

End HistoryFacts.
(** ** One window after the other *)

Section Windows.

Implicit Types (m : ipStore) (ip : jsstring).

Lemma decisions_app ip evs1 evs2 : ∀ m,
  decisions ip (evs1 ++ evs2) m
  = decisions ip evs1 m ++ decisions ip evs2 (run evs1 m).
Proof.
  induction evs1 as [|[now ip'|now] evs1 IH]; intros m; [done| |].
  - cbn [app decisions]. unfold run. cbn [fold_left step].
    destruct (isRateLimited now ip' m) as [limited m']. cbn [snd].
    destruct (decide (ip' = ip)); [cbn [app]; f_equal|]; apply IH.
  - cbn [app decisions]. apply IH.
Qed.

Lemma run_keeps_window ip t1 evs : ∀ m c,
  m !! ip = Some {| count := c; timestamp := t1 |} →
  Forall (in_window ip t1) evs →
  ∃ c', run evs m !! ip = Some {| count := c'; timestamp := t1 |}.
Proof.
  induction evs as [|[now ip'|now] evs IH]; intros m c Hm Hall; [by exists c| |];
    apply Forall_cons in Hall as [Hnow Hall]; simpl in Hnow;
    unfold run; cbn [fold_left step].
  - destruct (decide (ip' = ip)) as [->|Hne].
    + specialize (Hnow eq_refl). unfold isRateLimited. rewrite Hm. simpl.
      destruct (Z.ltb_spec RATE_LIMIT_WINDOW (now - t1)); [lia|].
      destruct (_ <=? _); simpl; [by apply (IH _ c)|].
      apply (IH _ (c + 1)); [by rewrite lookup_insert_eq|done].
    + apply (IH _ c); [|done]. by rewrite isRateLimited_other.
  - apply (IH _ c); [by apply sweep_keeps|done].
Qed.

Lemma decisions_from_opening ip t1 evs m :
  opens_window t1 ip m →
  Forall (in_window ip t1) evs →
  decisions ip (Request t1 ip :: evs) m
  = (λ k : nat, bool_decide (20 < S k)%nat) <$> seq 0 (S (requests_of ip evs))
  ∧ ∃ c, run (Request t1 ip :: evs) m !! ip
         = Some {| count := c; timestamp := t1 |}.
Proof.
  intros Hopen Hall. split.
  - simpl. rewrite (isRateLimited_opens _ _ _ Hopen).
    rewrite decide_True by done. f_equal.
    rewrite (decisions_in_window ip t1 evs _ 1);
      [|by rewrite lookup_insert_eq|done].
    rewrite <- (fmap_S_seq 0), <- list_fmap_compose.
    apply list_fmap_ext. intros _ k _. simpl.
    apply bool_decide_ext. unfold MAX_REQUESTS_PER_IP. lia.
  - unfold run. cbn [fold_left step].
    rewrite (isRateLimited_opens _ _ _ Hopen). cbn [snd].
    apply (run_keeps_window ip t1 evs _ 1); [by rewrite lookup_insert_eq|done].
Qed.

(** X23.  The window is fixed by the request that opened it: requests
    made while it lasts, denied or not, do not prolong it.  The first
    request of the key that comes more than an hour after the opening one
    is allowed and opens a new window, in which the count starts again: the
    answers are those of two windows side by side, so that up to twenty
    requests just before the hour is over and twenty just after are all
    allowed. *)
Theorem count_restarts_after_the_hour ip t1 evs1 t2 evs2 m :
  opens_window t1 ip m →
  Forall (in_window ip t1) evs1 →
  RATE_LIMIT_WINDOW < t2 - t1 →
  Forall (in_window ip t2) evs2 →
  decisions ip (Request t1 ip :: evs1 ++ Request t2 ip :: evs2) m
  = ((λ k : nat, bool_decide (20 < S k)%nat)
       <$> seq 0 (S (requests_of ip evs1)))
    ++ ((λ k : nat, bool_decide (20 < S k)%nat)
          <$> seq 0 (S (requests_of ip evs2))).
Proof.
  intros Hopen Hin1 Hlate Hin2.
  change (Request t1 ip :: evs1 ++ Request t2 ip :: evs2)
    with ((Request t1 ip :: evs1) ++ Request t2 ip :: evs2).
  rewrite decisions_app.
  destruct (decisions_from_opening ip t1 evs1 m Hopen Hin1) as [-> [c Hc]].
  f_equal.
  apply decisions_from_opening; [|done]. right. eexists. split; [done|].
  simpl. lia.
Qed.

(** Twenty requests in the last minute of an hour and twenty in the first
    minute of the next: forty allowed in two minutes. *)
Lemma count_restarts_after_the_hour_witness :
  decisions (lit "10.0.0.1")
    (Request 0 (lit "10.0.0.1")
     :: List.map (λ k : nat, Request (3540000 + 3000 * Z.of_nat k) (lit "10.0.0.1"))
          (seq 1 19)
     ++ Request 3600001 (lit "10.0.0.1")
     :: List.map (λ k : nat, Request (3600001 + 3000 * Z.of_nat k) (lit "10.0.0.1"))
          (seq 1 19)) ∅
  = repeat false 40.
Proof.
  rewrite count_restarts_after_the_hour.
  - reflexivity.
  - by left.
  - simpl. repeat constructor; simpl; intros _; unfold RATE_LIMIT_WINDOW; lia.
  - unfold RATE_LIMIT_WINDOW. lia.
  - simpl. repeat constructor; simpl; intros _; unfold RATE_LIMIT_WINDOW; lia.
Defined.

End Windows.
